(** * alohartc: the V4L2 media source, its tracks and its fan-out loop

    A shallow embedding of [v4l2_media_source.go] and of the constructor
    stub of the combined RTSP source, together with the properties of the
    broadcast / lifecycle core: reference-counted start and stop of the
    capture device, fan-out of every chunk to every live buffer, shutdown
    on a read error, and the construction-time error paths. *)

From stdpp Require Import gmap strings list fin_maps.
From Stdlib Require Import NArith.

Set Default Proof Using "Type".

(** ** Errors

    Go's [error] values.  The package-level sentinels [errNotImplemented]
    and [errNotSupported] are declared in another file of the package; they are
    only ever compared by identity, so each is a constructor of its own.
    Everything the v4l2 adapter reports is an [errDevice]. *)

Inductive error : Type :=
  | errNotImplemented
  | errNotSupported
  | errDevice (msg : string).

#[global] Instance error_eq_dec : EqDecision error.
Proof. solve_decision. Defined.

(** ** The v4l2 adapter, seen from its caller

    [internal/v4l2] is an external collaborator.  What the media source
    does to it is the sequence of calls it makes; what it answers is
    supplied by the environment. *)

Module v4l2.

(** [v4l2.Config] as the constructor fills it in. *)
Record Config : Type := mkConfig {
  Width : N;
  Height : N;
  Format : N;
  RepeatSequenceHeader : bool
}.

(** One call into the adapter. *)
Inductive Call : Type :=
  | Open (filename : string) (cfg : Config)
  | SetBitrate (bitrate : N)
  | FlipHorizontal
  | FlipVertical
  | Start
  | Stop
  | Read
  | Close.

#[global] Instance Config_eq_dec : EqDecision Config.
Proof. solve_decision. Defined.

#[global] Instance Call_eq_dec : EqDecision Call.
Proof. solve_decision. Defined.

(** A [*v4l2.VideoReader] is represented by the calls made on it so far,
    oldest first. *)
Abbreviation VideoReader := (list Call) (only parsing).

(** The answers of the adapter to the calls of the constructor. *)
Record Driver : Type := mkDriver {
  open_result : string → Config → option error;
  setBitrate_result : N → option error;
  flipHorizontal_result : option error;
  flipVertical_result : option error
}.

(** Whether the last [Start] / [Stop] issued on the handle is a [Start],
    beginning from [r]. *)
Fixpoint running_from (r : bool) (log : VideoReader) : bool :=
  match log with
  | [] => r
  | Start :: log' => running_from true log'
  | Stop :: log' => running_from false log'
  | _ :: log' => running_from r log'
  end.

Definition running (log : VideoReader) : bool := running_from false log.

(** No [Start] on a started handle and no [Stop] on a stopped one. *)
Fixpoint alternating_from (r : bool) (log : VideoReader) : bool :=
  match log with
  | [] => true
  | Start :: log' => negb r && alternating_from true log'
  | Stop :: log' => r && alternating_from false log'
  | _ :: log' => alternating_from r log'
  end.

Definition alternating (log : VideoReader) : bool := alternating_from false log.

(** Number of occurrences of a call. *)
Definition count (c : Call) (log : VideoReader) : nat :=
  length (filter (λ c', c' = c) log).

End v4l2.

(** ** Broadcast buffers *)

(** Modelled from the spec: [Buffer], [NewBuffer], [Buffer.Write] and
    [Buffer.Close] are declared elsewhere in the package.  The spec describes a single-writer, single-reader byte conduit:
    [write] stores an independent copy of the bytes behind what is already
    buffered, [close] is idempotent, and a write after close is a no-op.
    The buffering policy is an implementation choice; the one taken here
    keeps every chunk. *)
Record Buffer : Type := mkBuffer {
  buf_data : list (list Byte.byte);
  buf_closed : bool
}.

#[global] Instance byte_eq_dec : EqDecision Byte.byte := Byte.byte_eq_dec.

#[global] Instance Buffer_eq_dec : EqDecision Buffer.
Proof. solve_decision. Defined.

Definition Buffer_new : Buffer := mkBuffer [] false.

Definition Buffer_Write (p : list Byte.byte) (b : Buffer) : Buffer :=
  if buf_closed b then b else mkBuffer (buf_data b ++ [p]) false.

Definition Buffer_Close (b : Buffer) : Buffer := mkBuffer (buf_data b) true.

(** ** The media source and the objects it allocates *)

(** A [*Buffer]: the index of the buffer among the buffers allocated. *)
Abbreviation BufPtr := nat (only parsing).

(** A [Track] value: the identity of a track object, its index among the
    track objects allocated.  This is the key of [ms.tracks]. *)
Abbreviation Track := nat (only parsing).

(** The [V4L2MediaSource] ([device], [tracks]) together with the part of
    the Go heap it works on: the buffers and track objects allocated by
    [GetTrack], and the number of [readLoop] goroutines that are alive. *)
Record State : Type := mkState {
  device : v4l2.VideoReader;
  tracks : gmap nat nat;
  buffers : list Buffer;
  trackObjs : list nat;
  readLoops : nat
}.

Definition set_device (d : v4l2.VideoReader) (s : State) : State :=
  mkState d (tracks s) (buffers s) (trackObjs s) (readLoops s).
Definition set_tracks (m : gmap nat nat) (s : State) : State :=
  mkState (device s) m (buffers s) (trackObjs s) (readLoops s).
Definition set_buffers (h : list Buffer) (s : State) : State :=
  mkState (device s) (tracks s) h (trackObjs s) (readLoops s).
Definition set_trackObjs (o : list nat) (s : State) : State :=
  mkState (device s) (tracks s) (buffers s) o (readLoops s).
Definition set_readLoops (n : nat) (s : State) : State :=
  mkState (device s) (tracks s) (buffers s) (trackObjs s) n.

(** A call on [ms.device]. *)
Definition device_call (c : v4l2.Call) (s : State) : State :=
  set_device (device s ++ [c]) s.

(** [NewBuffer()]: a fresh, open, empty buffer. *)
Definition NewBuffer (s : State) : BufPtr * State :=
  (length (buffers s), set_buffers (buffers s ++ [Buffer_new]) s).

(** Modelled from the spec: [NewH264VideoTrack] is declared elsewhere in
    the package.  A track is a read-closable view over one broadcast
    buffer; each call allocates a new track object that keeps the buffer
    it was given. *)
Definition NewH264VideoTrack (buf : BufPtr) (s : State) : Track * State :=
  (length (trackObjs s), set_trackObjs (trackObjs s ++ [buf]) s).

(** [go ms.readLoop()] *)
Definition go_readLoop (s : State) : State :=
  set_readLoops (S (readLoops s)) s.

(** [func (ms *V4L2MediaSource) GetTrack() Track] *)
Definition GetTrack (s : State) : Track * State :=
  let '(buf, s1) := NewBuffer s in
  let '(track, s2) := NewH264VideoTrack buf s1 in
  let s3 := set_tracks (<[track := buf]> (tracks s2)) s2 in
  let s4 :=
    if decide (size (tracks s3) = 1)
    then go_readLoop (device_call v4l2.Start s3)
    else s3 in
  (track, s4).

(** [func (ms *V4L2MediaSource) CloseTrack(track Track)] *)
Definition CloseTrack (track : Track) (s : State) : State :=
  match tracks s !! track with
  | None => s
  | Some buffer =>
      let s1 := set_tracks (delete track (tracks s)) s in
      let s2 :=
        if decide (size (tracks s1) = 0)
        then device_call v4l2.Stop s1
        else s1 in
      set_buffers (alter Buffer_Close buffer (buffers s2)) s2
  end.

(** [for t := range ms.tracks { ms.CloseTrack(t) }].  [CloseTrack t]
    removes no entry but that of [t], so the loop reaches every key that
    the map holds when it begins. *)
Definition closeAllTracks (s : State) : State :=
  foldr CloseTrack s (map_to_list (tracks s)).*1.

(** [func (ms *V4L2MediaSource) Close() error]; [r] is the answer of
    [ms.device.Close()]. *)
Definition Close (r : option error) (s : State) : option error * State :=
  (r, device_call v4l2.Close (closeAllTracks s)).

(** ** The fan-out loop *)

(** What one [ms.device.Read(buf)] returns: [n] bytes in [buf[:n]], or an
    error.  [Buffer.Write] keeps a copy of the bytes it is given, so the
    chunk is passed on as a value: the next [Read], which fills the same
    array again, does not reach what the buffers hold. *)
Inductive ReadOutcome : Type :=
  | ReadOk (chunk : list Byte.byte)
  | ReadErr (e : error).

(** [buf := make([]byte, 256*1024)]: the size of the array that every
    [Read] of a loop fills; [n] is at most this. *)
Definition readBufSize : N := 256 * 1024.

(** [for _, buffer := range ms.tracks { buffer.Write(buf[:n]) }] *)
Definition writeAll (chunk : list Byte.byte) (s : State) : State :=
  set_buffers
    (foldr (λ buffer h, alter (Buffer_Write chunk) buffer h)
           (buffers s) (map_to_list (tracks s)).*2)
    s.

(** The goroutine returns. *)
Definition exit_readLoop (s : State) : State :=
  set_readLoops (pred (readLoops s)) s.

(** One turn of the [for] loop of [readLoop], given what [Read] returns.
    The boolean tells whether the loop goes on; when it does not, the
    deferred function has run. *)
Definition readLoop_iter (o : ReadOutcome) (s : State) : bool * State :=
  let s1 := device_call v4l2.Read s in
  match o with
  | ReadErr _ => (false, exit_readLoop (closeAllTracks s1))
  | ReadOk chunk => (true, writeAll chunk s1)
  end.

(** How a run of [readLoop] ends: it returns, leaving the rest of what the
    device would have answered unread, or it waits in [Read]. *)
Inductive LoopResult : Type :=
  | Returned (s : State) (unread : list ReadOutcome)
  | Waiting (s : State).

(** [func (ms *V4L2MediaSource) readLoop()], run against the answers
    [outs] of the device, with no other goroutine stepping in between. *)
Fixpoint readLoop (outs : list ReadOutcome) (s : State) : LoopResult :=
  match outs with
  | [] => Waiting s
  | o :: outs' =>
      match readLoop_iter o s with
      | (true, s') => readLoop outs' s'
      | (false, s') => Returned s' outs'
      end
  end.

(** ** Construction *)

Section Constructor.

(** [v4l2.V4L2_PIX_FMT_H264], a constant of the adapter package. *)
Variable V4L2_PIX_FMT_H264 : N.

(** [func NewV4L2MediaSource(filename string, width, height, bitrate uint,
    hflip, vflip bool)], which returns a [*V4L2MediaSource] and an
    [error].  A [uint] argument is passed on as it is.  The third component
    is the sequence of calls made into the adapter, which on success is
    the history of the handle kept in the [device] field. *)
Definition NewV4L2MediaSource (drv : v4l2.Driver)
    (filename : string) (width height bitrate : N) (hflip vflip : bool)
  : option State * option error * v4l2.VideoReader :=
  let cfg := v4l2.mkConfig width height V4L2_PIX_FMT_H264 true in
  let dev := [v4l2.Open filename cfg] in
  match v4l2.open_result drv filename cfg with
  | Some err => (None, Some err, dev)
  | None =>
      let dev := dev ++ [v4l2.SetBitrate bitrate] in
      match v4l2.setBitrate_result drv bitrate with
      | Some err => (None, Some err, dev)
      | None =>
          let '(dev, herr) :=
            if hflip
            then (dev ++ [v4l2.FlipHorizontal], v4l2.flipHorizontal_result drv)
            else (dev, None) in
          match herr with
          | Some err => (None, Some err, dev)
          | None =>
              let '(dev, verr) :=
                if vflip
                then (dev ++ [v4l2.FlipVertical], v4l2.flipVertical_result drv)
                else (dev, None) in
              match verr with
              | Some err => (None, Some err, dev)
              | None => (Some (mkState dev ∅ [] [] 0), None, dev)
              end
          end
      end
  end.

End Constructor.

(** [type RTSPAudioVideoSource struct { AudioSourcer; VideoSourcer }]: two
    embedded interface values, each nil or a reference to an object. *)
Record RTSPAudioVideoSource : Type := mkRTSPAudioVideoSource {
  AudioSourcer : option nat;
  VideoSourcer : option nat
}.

(** [func NewRTSPAudioVideoSource(url string)], which returns a
    [*RTSPAudioVideoSource] and an [error]. *)
Definition NewRTSPAudioVideoSource (url : string)
  : option RTSPAudioVideoSource * option error :=
  (None, Some errNotImplemented).

(** ** Runs of a source

    The calls of the consumers and the turns of the fan-out loop, each
    taken as a whole, in the order in which they happen. *)

Inductive Event : Type :=
  | EvGetTrack
  | EvCloseTrack (t : Track)
  | EvClose (r : option error)
  | EvRead (o : ReadOutcome).

(** A turn of the loop needs a loop: without a live [readLoop] nothing
    reads the device. *)
Definition step (e : Event) (s : State) : State :=
  match e with
  | EvGetTrack => (GetTrack s).2
  | EvCloseTrack t => CloseTrack t s
  | EvClose r => (Close r s).2
  | EvRead o =>
      if decide (readLoops s = 0) then s else (readLoop_iter o s).2
  end.

Definition run (evs : list Event) (s : State) : State :=
  foldl (λ s e, step e s) s evs.

(** The states a source goes through: from a successful construction, by
    whole calls and whole turns of the loop. *)
Inductive reachable : State → Prop :=
  | reachable_new fmt drv filename width height bitrate hflip vflip s tr :
      NewV4L2MediaSource fmt drv filename width height bitrate hflip vflip
        = (Some s, None, tr) →
      reachable s
  | reachable_step e s :
      reachable s → reachable (step e s).

(** The chunks that the events of a run read from the device. *)
Fixpoint chunks_of (evs : list Event) : list (list Byte.byte) :=
  match evs with
  | [] => []
  | EvRead (ReadOk chunk) :: evs' => chunk :: chunks_of evs'
  | _ :: evs' => chunks_of evs'
  end.

(** Whether an event takes every association away ([Close], a failed
    read) or that of [t]. *)
Definition removes (t : Track) (e : Event) : bool :=
  match e with
  | EvGetTrack => false
  | EvCloseTrack t' => bool_decide (t' = t)
  | EvClose _ => true
  | EvRead (ReadErr _) => true
  | EvRead (ReadOk _) => false
  end.

(** The events of a run up to the first one that removes [t]. *)
Fixpoint while_associated (t : Track) (evs : list Event) : list Event :=
  match evs with
  | [] => []
  | e :: evs' => if removes t e then [] else e :: while_associated t evs'
  end.

(** ** What holds of every state of a source *)

(** The heap as [GetTrack] builds it: a track in the map is a track object
    with the buffer the map gives, no two track objects share a buffer,
    and the buffer of a track in the map is allocated and open. *)
Record heap_ok (s : State) : Prop := mk_heap_ok {
  heap_objs : ∀ t b, tracks s !! t = Some b → trackObjs s !! t = Some b;
  heap_bufs : ∀ t b, trackObjs s !! t = Some b → b < length (buffers s);
  heap_nodup : NoDup (trackObjs s);
  heap_open : ∀ t b, tracks s !! t = Some b →
    ∃ B, buffers s !! b = Some B ∧ buf_closed B = false
}.

(** The device is started when and only when there are tracks, it was
    never started twice in a row nor stopped twice in a row, and a loop is
    alive as long as there are tracks. *)
Record bookkeeping (s : State) : Prop := mk_bookkeeping {
  bk_running : v4l2.running (device s) = negb (bool_decide (tracks s = ∅));
  bk_alternating : v4l2.alternating (device s) = true;
  bk_loops : tracks s ≠ ∅ → 0 < readLoops s
}.

Definition Inv (s : State) : Prop := heap_ok s ∧ bookkeeping s.

(** The calls that an operation adds to the history of the device. *)
Definition calls_added (s s' : State) (cs : list v4l2.Call) : Prop :=
  device s' = device s ++ cs.

(** A track that its consumer can read from: it is in the map and its
    buffer is open, so the loop feeds it. *)
Definition usable (t : Track) (s : State) : Prop :=
  ∃ b B, tracks s !! t = Some b ∧ buffers s !! b = Some B ∧ buf_closed B = false.

(** [GetTrack] refusing to serve: the track it returns is not usable and
    the device is not called. *)
Definition GetTrack_fails (s : State) : Prop :=
  ¬ usable (GetTrack s).1 (GetTrack s).2 ∧ device (GetTrack s).2 = device s.

(** The calls that the constructor makes: an [Open], then controls. *)
Definition setup_call (c : v4l2.Call) : bool :=
  match c with
  | v4l2.Open _ _ | v4l2.SetBitrate _ | v4l2.FlipHorizontal
  | v4l2.FlipVertical => true
  | _ => false
  end.

Definition is_Open (c : v4l2.Call) : bool :=
  match c with
  | v4l2.Open _ _ => true
  | _ => false
  end.

(** ** Calls that overlap

    [GetTrack] and [CloseTrack] statement by statement, as goroutines that
    run them at the same time go through them.  Neither takes a lock, so a
    goroutine may be overtaken between any two statements. *)

Module Interleaving.

(** Where a goroutine stands, named after the statement it runs next. *)
Inductive Thread : Type :=
  | GetTrack_insert
  | GetTrack_len (track : Track)
  | GetTrack_Start (track : Track)
  | GetTrack_go (track : Track)
  | CloseTrack_lookup (track : Track)
  | CloseTrack_delete (track : Track) (buffer : BufPtr)
  | CloseTrack_len (buffer : BufPtr)
  | CloseTrack_Stop (buffer : BufPtr)
  | CloseTrack_Close (buffer : BufPtr)
  | Done (result : option Track).

(** One statement of a goroutine. *)
Definition thread_step (th : Thread) (s : State) : Thread * State :=
  match th with
  | GetTrack_insert =>
      let '(buf, s1) := NewBuffer s in
      let '(track, s2) := NewH264VideoTrack buf s1 in
      (GetTrack_len track, set_tracks (<[track := buf]> (tracks s2)) s2)
  | GetTrack_len track =>
      if decide (size (tracks s) = 1)
      then (GetTrack_Start track, s)
      else (Done (Some track), s)
  | GetTrack_Start track => (GetTrack_go track, device_call v4l2.Start s)
  | GetTrack_go track => (Done (Some track), go_readLoop s)
  | CloseTrack_lookup track =>
      match tracks s !! track with
      | None => (Done None, s)
      | Some buffer => (CloseTrack_delete track buffer, s)
      end
  | CloseTrack_delete track buffer =>
      (CloseTrack_len buffer, set_tracks (delete track (tracks s)) s)
  | CloseTrack_len buffer =>
      if decide (size (tracks s) = 0)
      then (CloseTrack_Stop buffer, s)
      else (CloseTrack_Close buffer, s)
  | CloseTrack_Stop buffer => (CloseTrack_Close buffer, device_call v4l2.Stop s)
  | CloseTrack_Close buffer =>
      (Done None, set_buffers (alter Buffer_Close buffer (buffers s)) s)
  | Done r => (Done r, s)
  end.

Definition finished (th : Thread) : bool :=
  match th with
  | Done _ => true
  | _ => false
  end.

(** A call of a consumer, and the goroutine that begins it. *)
Inductive Call : Type :=
  | CallGetTrack
  | CallCloseTrack (t : Track).

Definition entry (c : Call) : Thread :=
  match c with
  | CallGetTrack => GetTrack_insert
  | CallCloseTrack t => CloseTrack_lookup t
  end.

(** The goroutine [i] runs one statement. *)
Definition sched_step (i : nat) (p : list Thread * State) : list Thread * State :=
  match p.1 !! i with
  | None => p
  | Some th =>
      let '(th', s') := thread_step th p.2 in (<[i := th']> p.1, s')
  end.

(** A schedule names, statement after statement, the goroutine that
    runs. *)
Definition run_schedule (sched : list nat) (p : list Thread * State)
  : list Thread * State :=
  foldl (λ p i, sched_step i p) p sched.

(** No call is longer than five statements. *)
Definition call_length : nat := 5.

(** The schedule that lets each of [n] goroutines run from its first
    statement to its last before the next one begins. *)
Definition serial_schedule (n : nat) : list nat :=
  mjoin (replicate call_length <$> seq 0 n).

(** A goroutine runs [n] statements with nothing in between. *)
Fixpoint steps (n : nat) (th : Thread) (s : State) : Thread * State :=
  match n with
  | 0 => (th, s)
  | S n' => let '(th', s') := thread_step th s in steps n' th' s'
  end.

(** The calls as a single goroutine makes them, one after the other. *)
Definition call (c : Call) (s : State) : State :=
  match c with
  | CallGetTrack => (GetTrack s).2
  | CallCloseTrack t => CloseTrack t s
  end.

Definition calls (cs : list Call) (s : State) : State :=
  foldl (λ s c, call c s) s cs.

End Interleaving.

(** The state after the turns of the loop that read [chunks], with no
    other goroutine in between. *)
Definition after_reads (chunks : list (list Byte.byte)) (s : State) : State :=
  foldl (λ s chunk, writeAll chunk (device_call v4l2.Read s)) s chunks.

(** A source on [/dev/video0], just built. *)
Definition driver_ok : v4l2.Driver :=
  v4l2.mkDriver (λ _ _, None) (λ _, None) None None.

(** The FourCC ['H' '2' '6' '4'], little-endian. *)
Definition H264 : N := 875967048.

Definition src0 : State := mkState
  [v4l2.Open "/dev/video0" (v4l2.mkConfig 640 480 H264 true);
   v4l2.SetBitrate 1000000]
  ∅ [] [] 0.

(** ** The history of the device *)

Lemma running_from_snoc r log c :
  v4l2.running_from r (log ++ [c]) =
    match c with
    | v4l2.Start => true
    | v4l2.Stop => false
    | _ => v4l2.running_from r log
    end.
Proof.
  revert r. induction log as [|c' log IH]; intros r; simpl.
  - by destruct c.
  - destruct c'; rewrite IH; done.
Qed.

Lemma alternating_from_snoc r log c :
  v4l2.alternating_from r (log ++ [c]) =
    v4l2.alternating_from r log &&
    match c with
    | v4l2.Start => negb (v4l2.running_from r log)
    | v4l2.Stop => v4l2.running_from r log
    | _ => true
    end.
Proof.
  revert r. induction log as [|c' log IH]; intros r; simpl.
  - destruct c, r; done.
  - destruct c'; rewrite ?IH; try done; by rewrite andb_assoc.
Qed.

Lemma count_snoc c log c' :
  v4l2.count c (log ++ [c']) =
    v4l2.count c log + (if decide (c' = c) then 1 else 0).
Proof.
  unfold v4l2.count. rewrite filter_app, length_app. f_equal.
  rewrite filter_cons, filter_nil. by case_decide.
Qed.

(** ** [GetTrack] and [CloseTrack], one call at a time *)

Lemma size_insert_fresh_1 (m : gmap nat nat) t b :
  m !! t = None → size (<[t:=b]> m) = 1 ↔ m = ∅.
Proof.
  intros Hf. rewrite map_size_insert_None by done. split.
  - intros H. apply map_size_empty_inv. lia.
  - intros ->. by rewrite map_size_empty.
Qed.

Lemma size_delete_0 (m : gmap nat nat) t b :
  m !! t = Some b → size (delete t m) = 0 ↔ size m = 1.
Proof.
  intros Hf. rewrite map_size_delete, Hf. simpl.
  assert (size m ≠ 0) by (eapply map_size_ne_0_lookup_2; eauto). lia.
Qed.

Lemma heap_ok_fresh s : heap_ok s → tracks s !! length (trackObjs s) = None.
Proof.
  intros H. destruct (tracks s !! length (trackObjs s)) as [b|] eqn:E; [|done].
  apply (heap_objs _ H) in E. apply lookup_lt_Some in E. lia.
Qed.

(** What [GetTrack] does, given that the track it allocates is new. *)
Lemma GetTrack_eq s :
  tracks s !! length (trackObjs s) = None →
  GetTrack s =
    (length (trackObjs s),
     mkState
       (device s ++ (if decide (tracks s = ∅) then [v4l2.Start] else []))
       (<[length (trackObjs s) := length (buffers s)]> (tracks s))
       (buffers s ++ [Buffer_new])
       (trackObjs s ++ [length (buffers s)])
       (readLoops s + (if decide (tracks s = ∅) then 1 else 0))).
Proof.
  intros Hf. unfold GetTrack; simpl.
  pose proof (size_insert_fresh_1 _ _ (length (buffers s)) Hf) as Hsz.
  do 2 case_decide; try tauto.
  - unfold go_readLoop, device_call, set_readLoops, set_device; simpl.
    do 2 f_equal. lia.
  - unfold set_tracks; simpl. rewrite app_nil_r. do 2 f_equal. lia.
Qed.

Lemma GetTrack_buffers s : buffers (GetTrack s).2 = buffers s ++ [Buffer_new].
Proof. unfold GetTrack; simpl. by case_decide. Qed.

Lemma GetTrack_trackObjs s :
  trackObjs (GetTrack s).2 = trackObjs s ++ [length (buffers s)].
Proof. unfold GetTrack; simpl. by case_decide. Qed.

Lemma GetTrack_tracks s :
  tracks (GetTrack s).2 =
    <[length (trackObjs s) := length (buffers s)]> (tracks s).
Proof. unfold GetTrack; simpl. by case_decide. Qed.

Lemma GetTrack_track s : (GetTrack s).1 = length (trackObjs s).
Proof. done. Qed.

(** What [CloseTrack] does to a track of the map. *)
Lemma CloseTrack_eq s t b :
  tracks s !! t = Some b →
  CloseTrack t s =
    mkState
      (device s ++ (if decide (size (tracks s) = 1) then [v4l2.Stop] else []))
      (delete t (tracks s))
      (alter Buffer_Close b (buffers s))
      (trackObjs s)
      (readLoops s).
Proof.
  intros Hf. unfold CloseTrack. rewrite Hf; simpl.
  pose proof (size_delete_0 _ _ _ Hf) as Hsz.
  do 2 case_decide; try tauto; simpl; by rewrite ?app_nil_r.
Qed.

Lemma CloseTrack_absent s t : tracks s !! t = None → CloseTrack t s = s.
Proof. intros Hf. unfold CloseTrack. by rewrite Hf. Qed.

Lemma CloseTrack_tracks s t : tracks (CloseTrack t s) = delete t (tracks s).
Proof.
  destruct (tracks s !! t) as [b|] eqn:E.
  - by rewrite (CloseTrack_eq _ _ _ E).
  - rewrite CloseTrack_absent by done. by rewrite delete_id.
Qed.

Lemma CloseTrack_trackObjs s t : trackObjs (CloseTrack t s) = trackObjs s.
Proof.
  destruct (tracks s !! t) as [b|] eqn:E.
  - by rewrite (CloseTrack_eq _ _ _ E).
  - by rewrite CloseTrack_absent.
Qed.

Lemma CloseTrack_readLoops s t : readLoops (CloseTrack t s) = readLoops s.
Proof.
  destruct (tracks s !! t) as [b|] eqn:E.
  - by rewrite (CloseTrack_eq _ _ _ E).
  - by rewrite CloseTrack_absent.
Qed.

(** ** The invariant is kept *)

Lemma tracks_injective s t1 t2 b :
  heap_ok s → tracks s !! t1 = Some b → tracks s !! t2 = Some b → t1 = t2.
Proof.
  intros H H1 H2.
  apply (heap_objs _ H) in H1. apply (heap_objs _ H) in H2.
  eapply NoDup_lookup; eauto using heap_nodup.
Qed.

Lemma bool_decide_empty_insert (m : gmap nat nat) t b :
  bool_decide (<[t:=b]> m = ∅) = false.
Proof. apply bool_decide_eq_false. apply insert_non_empty. Qed.

Lemma heap_ok_GetTrack s : heap_ok s → heap_ok (GetTrack s).2.
Proof.
  intros H. rewrite GetTrack_eq by by apply heap_ok_fresh.
  destruct H as [Hobjs Hbufs Hnd Hopen]. split; simpl.
  - intros t b. rewrite lookup_insert. case_decide as Ht.
    + intros [= <-]. subst t. by rewrite list_lookup_middle.
    + intros Hl. apply lookup_app_l_Some. eauto.
  - intros t b Hl. rewrite length_app; simpl.
    apply lookup_app_Some in Hl as [Hl|[_ Hl]].
    + apply Hbufs in Hl. lia.
    + apply list_lookup_singleton_Some in Hl as [_ <-]. lia.
  - apply NoDup_app. split_and!; [done| |apply NoDup_singleton].
    intros b Hb Hb'. apply list_elem_of_singleton in Hb'. subst b.
    apply list_elem_of_lookup in Hb as [t Ht]. apply Hbufs in Ht. lia.
  - intros t b. rewrite lookup_insert. case_decide as Ht.
    + intros [= <-]. exists Buffer_new. by rewrite list_lookup_middle.
    + intros Hl. destruct (Hopen _ _ Hl) as (B & HB & Hc).
      exists B. split; [|done]. by apply lookup_app_l_Some.
Qed.

Lemma bookkeeping_GetTrack s :
  heap_ok s → bookkeeping s → bookkeeping (GetTrack s).2.
Proof.
  intros H [Hr Ha Hl]. rewrite GetTrack_eq by by apply heap_ok_fresh.
  unfold v4l2.running, v4l2.alternating in *.
  split; unfold v4l2.running, v4l2.alternating; simpl.
  - rewrite bool_decide_empty_insert.
    destruct (decide (tracks s = ∅)) as [He|He]; simpl.
    + by rewrite running_from_snoc.
    + rewrite app_nil_r, Hr. by rewrite bool_decide_eq_false_2.
  - destruct (decide (tracks s = ∅)) as [He|He].
    + rewrite alternating_from_snoc, Ha, Hr. by rewrite bool_decide_eq_true_2.
    + by rewrite app_nil_r.
  - intros _. destruct (decide (tracks s = ∅)) as [He|He]; [lia|].
    specialize (Hl He). lia.
Qed.

Lemma Inv_GetTrack s : Inv s → Inv (GetTrack s).2.
Proof. intros [H B]. split; auto using heap_ok_GetTrack, bookkeeping_GetTrack. Qed.

Lemma heap_ok_CloseTrack s t : heap_ok s → heap_ok (CloseTrack t s).
Proof.
  intros H. destruct (tracks s !! t) as [b|] eqn:E;
    [|by rewrite CloseTrack_absent].
  rewrite (CloseTrack_eq _ _ _ E).
  pose proof (tracks_injective s) as Hinj.
  destruct H as [Hobjs Hbufs Hnd Hopen]. split; simpl.
  - intros t' b' [_ Hl]%lookup_delete_Some. eauto.
  - intros t' b' Hl. rewrite length_alter. eauto.
  - done.
  - intros t' b' [Hne Hl]%lookup_delete_Some.
    destruct (Hopen _ _ Hl) as (B & HB & Hc). exists B. split; [|done].
    rewrite list_lookup_alter_ne; [done|].
    intros <-. apply Hne. eapply Hinj; eauto. by split.
Qed.

Lemma delete_empty_iff_size_1 (m : gmap nat nat) t b :
  m !! t = Some b → delete t m = ∅ ↔ size m = 1.
Proof.
  intros Hf. rewrite <-(size_delete_0 m t b Hf). split.
  - intros ->. apply map_size_empty.
  - apply map_size_empty_inv.
Qed.

Lemma bookkeeping_CloseTrack s t : bookkeeping s → bookkeeping (CloseTrack t s).
Proof.
  intros B. destruct (tracks s !! t) as [b|] eqn:E;
    [|by rewrite CloseTrack_absent].
  rewrite (CloseTrack_eq _ _ _ E). destruct B as [Hr Ha Hl].
  assert (tracks s ≠ ∅) as Hne by (intros Hm; by rewrite Hm, lookup_empty in E).
  rewrite bool_decide_eq_false_2 in Hr by done. simpl in Hr.
  pose proof (delete_empty_iff_size_1 _ _ _ E) as Hd.
  unfold v4l2.running, v4l2.alternating in *.
  split; unfold v4l2.running, v4l2.alternating; simpl.
  - destruct (decide (size (tracks s) = 1)) as [Hs|Hs].
    + rewrite running_from_snoc. rewrite bool_decide_eq_true_2; [done|tauto].
    + rewrite app_nil_r, Hr. rewrite bool_decide_eq_false_2; [done|tauto].
  - destruct (decide (size (tracks s) = 1)) as [Hs|Hs].
    + by rewrite alternating_from_snoc, Ha, Hr.
    + by rewrite app_nil_r.
  - intros _. auto.
Qed.

Lemma Inv_CloseTrack s t : Inv s → Inv (CloseTrack t s).
Proof. intros [H B]. split; auto using heap_ok_CloseTrack, bookkeeping_CloseTrack. Qed.

(** ** Loops over the map *)

(** A method called on each of a list of buffers. *)
Lemma foldr_alter_length (f : Buffer → Buffer) ptrs (h : list Buffer) :
  length (foldr (λ b h, alter f b h) h ptrs) = length h.
Proof. induction ptrs as [|p ptrs IH]; simpl; [done|]. by rewrite length_alter. Qed.

Lemma foldr_alter_notin (f : Buffer → Buffer) ptrs (h : list Buffer) b :
  b ∉ ptrs → foldr (λ b h, alter f b h) h ptrs !! b = h !! b.
Proof.
  induction ptrs as [|p ptrs IH]; simpl; [done|].
  intros [Hne Hni]%not_elem_of_cons.
  rewrite list_lookup_alter_ne by done. auto.
Qed.

Lemma foldr_alter_in (f : Buffer → Buffer) ptrs (h : list Buffer) b :
  NoDup ptrs → b ∈ ptrs →
  foldr (λ b h, alter f b h) h ptrs !! b = f <$> h !! b.
Proof.
  induction ptrs as [|p ptrs IH]; simpl; [by intros _ ?%elem_of_nil|].
  intros [Hni Hnd]%NoDup_cons [->|Hin]%elem_of_cons.
  - rewrite list_lookup_alter_eq. by rewrite foldr_alter_notin.
  - rewrite list_lookup_alter_ne by (intros <-; done). auto.
Qed.

Lemma values_NoDup s : heap_ok s → NoDup (map_to_list (tracks s)).*2.
Proof.
  intros H. apply NoDup_fmap_2_strong; [|apply NoDup_map_to_list].
  intros [t1 b1] [t2 b2] H1%elem_of_map_to_list H2%elem_of_map_to_list.
  simpl. intros <-. f_equal. eapply tracks_injective; eauto.
Qed.

Lemma elem_of_values (m : gmap nat nat) b :
  b ∈ (map_to_list m).*2 ↔ ∃ t, m !! t = Some b.
Proof.
  rewrite list_elem_of_fmap. split.
  - intros ([t b'] & -> & Hin%elem_of_map_to_list). eauto.
  - intros [t Ht]. exists (t, b). by rewrite elem_of_map_to_list.
Qed.

Lemma omap_lookup_keys (m : gmap nat nat) (l : list (nat * nat)) :
  (∀ t b, (t, b) ∈ l → m !! t = Some b) →
  omap (λ t, m !! t) l.*1 = l.*2.
Proof.
  induction l as [|[t b] l IH]; simpl; [done|]. intros Hl.
  rewrite (Hl t b) by left. f_equal. apply IH.
  intros ???. apply Hl. by right.
Qed.

Lemma foldr_CloseTrack_tracks s l :
  tracks (foldr CloseTrack s l) = foldr delete (tracks s) l.
Proof.
  induction l as [|t l IH]; simpl; [done|].
  by rewrite CloseTrack_tracks, IH.
Qed.

Lemma lookup_foldr_delete (m : gmap nat nat) l t :
  foldr delete m l !! t = if decide (t ∈ l) then None else m !! t.
Proof.
  induction l as [|t' l IH]; cbn [foldr].
  - destruct (decide (t ∈ [])) as [H%elem_of_nil|]; done.
  - rewrite lookup_delete, IH.
    destruct (decide (t' = t)) as [->|Hne], (decide (t ∈ l)) as [Hl|Hl],
      (decide (t ∈ _ :: l)) as [Hc|Hc]; try done.
    + exfalso. apply Hc. left.
    + exfalso. apply Hc. left.
    + exfalso. apply Hc. by right.
    + apply elem_of_cons in Hc as [->|?]; done.
Qed.

Lemma closeAllTracks_tracks s : tracks (closeAllTracks s) = ∅.
Proof.
  unfold closeAllTracks. rewrite foldr_CloseTrack_tracks.
  apply map_eq. intros t. rewrite lookup_foldr_delete, lookup_empty.
  case_decide as Hin; [done|].
  destruct (tracks s !! t) as [b|] eqn:E; [|done].
  exfalso. apply Hin. apply list_elem_of_fmap. exists (t, b).
  by rewrite elem_of_map_to_list.
Qed.

Lemma foldr_CloseTrack_trackObjs s l :
  trackObjs (foldr CloseTrack s l) = trackObjs s.
Proof.
  induction l as [|t l IH]; simpl; [done|].
  by rewrite CloseTrack_trackObjs.
Qed.

Lemma foldr_CloseTrack_readLoops s l :
  readLoops (foldr CloseTrack s l) = readLoops s.
Proof.
  induction l as [|t l IH]; simpl; [done|].
  by rewrite CloseTrack_readLoops.
Qed.

(** The loop stops the device once, if there was a track at all. *)
Lemma foldr_CloseTrack_device s l :
  device (foldr CloseTrack s l) =
    device s ++
      (if decide (tracks s ≠ ∅ ∧ tracks (foldr CloseTrack s l) = ∅)
       then [v4l2.Stop] else []).
Proof.
  induction l as [|t l IH]; simpl.
  - rewrite decide_False by tauto. by rewrite app_nil_r.
  - set (sl := foldr CloseTrack s l) in *.
    destruct (tracks sl !! t) as [b|] eqn:E.
    + assert (tracks sl ≠ ∅) as Hne
        by (intros Hm; by rewrite Hm, lookup_empty in E).
      assert (tracks s ≠ ∅) as Hne'.
      { intros Hm. unfold sl in E.
        rewrite foldr_CloseTrack_tracks, lookup_foldr_delete, Hm in E.
        case_decide; by rewrite ?lookup_empty in E. }
      rewrite decide_False in IH by tauto. rewrite app_nil_r in IH.
      rewrite CloseTrack_tracks.
      pose proof (delete_empty_iff_size_1 _ _ _ E) as Hd.
      rewrite (CloseTrack_eq _ _ _ E); simpl. rewrite IH.
      destruct (decide (size (tracks sl) = 1)) as [Hs|Hs].
      * by rewrite decide_True by tauto.
      * by rewrite decide_False by tauto.
    + rewrite CloseTrack_absent by done. done.
Qed.

Lemma closeAllTracks_device s :
  device (closeAllTracks s) =
    device s ++ (if decide (tracks s = ∅) then [] else [v4l2.Stop]).
Proof.
  unfold closeAllTracks. rewrite foldr_CloseTrack_device.
  fold (closeAllTracks s). rewrite closeAllTracks_tracks.
  destruct (decide (tracks s = ∅)) as [He|He].
  - by rewrite decide_False by tauto.
  - by rewrite decide_True by tauto.
Qed.

(** The loop closes the buffer of every track that it closes. *)
Lemma foldr_CloseTrack_buffers s l :
  NoDup l →
  buffers (foldr CloseTrack s l) =
    foldr (λ b h, alter Buffer_Close b h) (buffers s)
          (omap (λ t, tracks s !! t) l).
Proof.
  induction l as [|t l IH]; simpl; [done|].
  intros [Hni Hnd]%NoDup_cons. specialize (IH Hnd).
  set (sl := foldr CloseTrack s l) in *.
  assert (tracks sl !! t = tracks s !! t) as Ht.
  { unfold sl. rewrite foldr_CloseTrack_tracks, lookup_foldr_delete.
    by rewrite decide_False. }
  destruct (tracks s !! t) as [b|] eqn:E; simpl.
  - rewrite (CloseTrack_eq _ _ _ Ht); simpl. by rewrite IH.
  - by rewrite CloseTrack_absent.
Qed.

Lemma closeAllTracks_buffers s :
  buffers (closeAllTracks s) =
    foldr (λ b h, alter Buffer_Close b h) (buffers s)
          (map_to_list (tracks s)).*2.
Proof.
  unfold closeAllTracks. rewrite foldr_CloseTrack_buffers.
  - rewrite omap_lookup_keys; [done|]. by intros t b ?%elem_of_map_to_list.
  - apply NoDup_fst_map_to_list.
Qed.

Lemma Inv_foldr_CloseTrack s l : Inv s → Inv (foldr CloseTrack s l).
Proof. intros H. induction l; simpl; auto using Inv_CloseTrack. Qed.

Lemma Inv_closeAllTracks s : Inv s → Inv (closeAllTracks s).
Proof. apply Inv_foldr_CloseTrack. Qed.

(** ** The turns of the loop and [Close] *)

Lemma Buffer_Write_open chunk B :
  buf_closed B = false → Buffer_Write chunk B = mkBuffer (buf_data B ++ [chunk]) false.
Proof. intros H. unfold Buffer_Write. by rewrite H. Qed.

(** A buffer of the map gets the chunk ... *)
Lemma writeAll_lookup_in chunk s t b :
  heap_ok s → tracks s !! t = Some b →
  buffers (writeAll chunk s) !! b = Buffer_Write chunk <$> buffers s !! b.
Proof.
  intros H Ht. unfold writeAll; simpl.
  apply foldr_alter_in; [by apply values_NoDup|].
  apply elem_of_values. eauto.
Qed.

(** ... and no other buffer is touched. *)
Lemma writeAll_lookup_notin chunk s b :
  (∀ t, tracks s !! t ≠ Some b) →
  buffers (writeAll chunk s) !! b = buffers s !! b.
Proof.
  intros Hn. unfold writeAll; simpl. apply foldr_alter_notin.
  rewrite elem_of_values. intros [t Ht]. by apply (Hn t).
Qed.

Lemma heap_ok_writeAll chunk s : heap_ok s → heap_ok (writeAll chunk s).
Proof.
  intros H. pose proof (writeAll_lookup_in chunk s) as Hin.
  destruct H as [Hobjs Hbufs Hnd Hopen]. split; try done.
  - intros t b Hl. unfold writeAll; simpl. rewrite foldr_alter_length. eauto.
  - intros t b Hl. change (tracks (writeAll chunk s)) with (tracks s) in Hl.
    destruct (Hopen _ _ Hl) as (B & HB & Hc).
    exists (Buffer_Write chunk B). split.
    + rewrite (Hin t b) by done. by rewrite HB.
    + by rewrite Buffer_Write_open.
Qed.

Lemma Inv_writeAll chunk s : Inv s → Inv (writeAll chunk s).
Proof.
  intros [H B]. split; [by apply heap_ok_writeAll|].
  destruct B; by split.
Qed.

Lemma Inv_device_call c s :
  c ≠ v4l2.Start → c ≠ v4l2.Stop → Inv s → Inv (device_call c s).
Proof.
  intros H1 H2 [[????] [Hr Ha Hl]]. split; [by split|].
  split; unfold v4l2.running, v4l2.alternating in *; simpl; [| |done].
  - rewrite running_from_snoc, Hr. by destruct c.
  - rewrite alternating_from_snoc, Ha. by destruct c.
Qed.

Lemma Inv_exit_readLoop s : Inv s → tracks s = ∅ → Inv (exit_readLoop s).
Proof.
  intros [[????] [Hr Ha Hl]] He. split; [by split|]. by split.
Qed.

Lemma Inv_readLoop_iter o s : Inv s → Inv (readLoop_iter o s).2.
Proof.
  intros H. destruct o as [chunk|e]; simpl.
  - apply Inv_writeAll, Inv_device_call; done.
  - apply Inv_exit_readLoop; [|apply closeAllTracks_tracks].
    apply Inv_closeAllTracks, Inv_device_call; done.
Qed.

Lemma Inv_Close r s : Inv s → Inv (Close r s).2.
Proof.
  intros H. simpl. apply Inv_device_call; [done..|].
  by apply Inv_closeAllTracks.
Qed.

Lemma Inv_step e s : Inv s → Inv (step e s).
Proof.
  intros H. destruct e as [|t|r|o]; simpl.
  - by apply Inv_GetTrack.
  - by apply Inv_CloseTrack.
  - by apply (Inv_Close r).
  - case_decide; [done|]. by apply Inv_readLoop_iter.
Qed.

Lemma Inv_run evs s : Inv s → Inv (run evs s).
Proof.
  revert s. induction evs as [|e evs IH]; intros s H; simpl; [done|].
  by apply IH, Inv_step.
Qed.

Lemma NewV4L2MediaSource_trace fmt drv filename width height bitrate hflip vflip :
  forallb setup_call
    (NewV4L2MediaSource fmt drv filename width height bitrate hflip vflip).2
  = true.
Proof.
  unfold NewV4L2MediaSource.
  destruct (v4l2.open_result drv filename _),
    (v4l2.setBitrate_result drv bitrate),
    hflip, (v4l2.flipHorizontal_result drv), vflip,
    (v4l2.flipVertical_result drv); reflexivity.
Qed.

Lemma NewV4L2MediaSource_Some fmt drv filename width height bitrate hflip vflip s e tr :
  NewV4L2MediaSource fmt drv filename width height bitrate hflip vflip
    = (Some s, e, tr) →
  e = None ∧ s = mkState tr ∅ [] [] 0.
Proof.
  unfold NewV4L2MediaSource.
  destruct (v4l2.open_result drv filename _),
    (v4l2.setBitrate_result drv bitrate),
    hflip, (v4l2.flipHorizontal_result drv), vflip,
    (v4l2.flipVertical_result drv); intros [= <- <- <-]; done.
Qed.

Lemma setup_running r log :
  forallb setup_call log = true →
  v4l2.running_from r log = r ∧ v4l2.alternating_from r log = true.
Proof.
  induction log as [|c log IH]; simpl; [done|].
  intros [Hc Hl]%andb_true_iff. by destruct c; try discriminate; auto.
Qed.

Lemma Inv_new fmt drv filename width height bitrate hflip vflip s tr :
  NewV4L2MediaSource fmt drv filename width height bitrate hflip vflip
    = (Some s, None, tr) →
  Inv s.
Proof.
  intros Hn.
  pose proof (NewV4L2MediaSource_trace fmt drv filename width height bitrate
                hflip vflip) as Htr. rewrite Hn in Htr; simpl in Htr.
  apply NewV4L2MediaSource_Some in Hn as [_ ->].
  destruct (setup_running false tr Htr) as [Hr Ha].
  split; split; simpl; try done.
  apply NoDup_nil_2.
Qed.

Lemma reachable_Inv s : reachable s → Inv s.
Proof.
  induction 1 as [????????? Hn|]; [by eapply Inv_new|by apply Inv_step].
Qed.

(** ** What a step does to one buffer *)

Lemma closeAllTracks_lookup_in s t b :
  heap_ok s → tracks s !! t = Some b →
  buffers (closeAllTracks s) !! b = Buffer_Close <$> buffers s !! b.
Proof.
  intros H Ht. rewrite closeAllTracks_buffers.
  apply foldr_alter_in; [by apply values_NoDup|].
  apply elem_of_values. eauto.
Qed.

Lemma closeAllTracks_lookup_notin s b :
  (∀ t, tracks s !! t ≠ Some b) →
  buffers (closeAllTracks s) !! b = buffers s !! b.
Proof.
  intros Hn. rewrite closeAllTracks_buffers. apply foldr_alter_notin.
  rewrite elem_of_values. intros [t Ht]. by apply (Hn t).
Qed.

Lemma closeAllTracks_trackObjs s : trackObjs (closeAllTracks s) = trackObjs s.
Proof. apply foldr_CloseTrack_trackObjs. Qed.

Lemma closeAllTracks_readLoops s : readLoops (closeAllTracks s) = readLoops s.
Proof. apply foldr_CloseTrack_readLoops. Qed.

Lemma heap_ok_device_call c s : heap_ok s → heap_ok (device_call c s).
Proof. intros [????]. by split. Qed.

(** A buffer that no track of the map uses is left as it is. *)
Lemma step_frame e s b :
  (∀ t, tracks s !! t ≠ Some b) → b < length (buffers s) →
  buffers (step e s) !! b = buffers s !! b.
Proof.
  intros Hn Hb. destruct e as [|t|r|[chunk|err]]; cbn [step].
  - rewrite GetTrack_buffers. by rewrite lookup_app_l.
  - destruct (tracks s !! t) as [b'|] eqn:E;
      [|by rewrite CloseTrack_absent].
    rewrite (CloseTrack_eq _ _ _ E); simpl.
    apply list_lookup_alter_ne. intros ->. by apply (Hn t).
  - simpl. by apply closeAllTracks_lookup_notin.
  - case_decide; [done|].
    by apply (writeAll_lookup_notin chunk (device_call v4l2.Read s)).
  - case_decide; [done|].
    by apply (closeAllTracks_lookup_notin (device_call v4l2.Read s)).
Qed.

Lemma step_trackObjs e s t b :
  trackObjs s !! t = Some b → trackObjs (step e s) !! t = Some b.
Proof.
  intros Ht. destruct e as [|t'|r|[chunk|err]]; cbn [step].
  - rewrite GetTrack_trackObjs. by apply lookup_app_l_Some.
  - by rewrite CloseTrack_trackObjs.
  - simpl. by rewrite closeAllTracks_trackObjs.
  - by case_decide.
  - case_decide; [done|]. simpl. by rewrite closeAllTracks_trackObjs.
Qed.

(** A track that has left the map does not come back. *)
Lemma step_tracks_None e s t b :
  trackObjs s !! t = Some b → tracks s !! t = None →
  tracks (step e s) !! t = None.
Proof.
  intros Ho Ht. destruct e as [|t'|r|[chunk|err]]; cbn [step].
  - rewrite GetTrack_tracks.
    rewrite lookup_insert_ne; [done|]. apply lookup_lt_Some in Ho. lia.
  - rewrite CloseTrack_tracks. rewrite lookup_delete. by case_decide.
  - simpl. by rewrite closeAllTracks_tracks.
  - by case_decide.
  - case_decide; [done|]. simpl. by rewrite closeAllTracks_tracks.
Qed.

Lemma unused_buffer s t b :
  heap_ok s → trackObjs s !! t = Some b → tracks s !! t = None →
  ∀ t', tracks s !! t' ≠ Some b.
Proof.
  intros H Ho Ht t' Ht'. pose proof (heap_objs _ H _ _ Ht') as Ho'.
  assert (t' = t) as -> by (eapply NoDup_lookup; eauto using heap_nodup).
  congruence.
Qed.

(** Once its track has left the map, a buffer never changes again. *)
Lemma run_closed_track evs s t b :
  Inv s → trackObjs s !! t = Some b → tracks s !! t = None →
  buffers (run evs s) !! b = buffers s !! b.
Proof.
  revert s. induction evs as [|e evs IH]; intros s HI Ho Ht; simpl; [done|].
  rewrite IH.
  - apply step_frame; [by eapply unused_buffer; [apply HI|..]|].
    eapply heap_bufs; [apply HI|done].
  - by apply Inv_step.
  - by apply step_trackObjs.
  - by eapply step_tracks_None.
Qed.

(** What one step does to the buffer of a track of the map. *)
Lemma step_associated e s t b B :
  Inv s → tracks s !! t = Some b → buffers s !! b = Some B →
  if removes t e
  then buffers (step e s) !! b = Some (Buffer_Close B)
       ∧ tracks (step e s) !! t = None
  else buffers (step e s) !! b = Some (mkBuffer (buf_data B ++ chunks_of [e]) false)
       ∧ tracks (step e s) !! t = Some b.
Proof.
  intros [H Bk] Ht HB.
  destruct (heap_open _ H _ _ Ht) as (B' & HB' & Hc).
  assert (B' = B) as -> by congruence.
  assert (tracks s ≠ ∅) as Hne by (intros Hm; by rewrite Hm, lookup_empty in Ht).
  pose proof (bk_loops _ Bk Hne) as Hloops.
  assert (B = mkBuffer (buf_data B ++ []) false) as HBeq
    by (destruct B; simpl in *; by rewrite app_nil_r, Hc).
  destruct e as [|t'|r|[chunk|err]]; cbn [step chunks_of removes].
  - rewrite GetTrack_tracks, GetTrack_buffers, lookup_insert_ne.
    + split; [|done]. rewrite <-HBeq. by apply lookup_app_l_Some.
    + apply (heap_objs _ H) in Ht. apply lookup_lt_Some in Ht. lia.
  - simpl. case_bool_decide as Heq.
    + subst t'. rewrite (CloseTrack_eq _ _ _ Ht); simpl.
      rewrite list_lookup_alter_eq, HB, lookup_delete_eq. done.
    + rewrite CloseTrack_tracks, lookup_delete_ne by done. split; [|done].
      rewrite <-HBeq.
      destruct (tracks s !! t') as [b'|] eqn:E;
        [|by rewrite CloseTrack_absent].
      rewrite (CloseTrack_eq _ _ _ E); simpl.
      rewrite list_lookup_alter_ne; [done|].
      intros ->. apply Heq. eapply tracks_injective; eauto.
  - simpl. rewrite closeAllTracks_tracks, lookup_empty. split; [|done].
    by rewrite (closeAllTracks_lookup_in _ t), HB.
  - rewrite decide_False by lia. cbn [readLoop_iter snd]. split; [|done].
    rewrite (writeAll_lookup_in chunk (device_call v4l2.Read s) t b)
      by (try apply heap_ok_device_call; done).
    simpl. rewrite HB. simpl. by rewrite Buffer_Write_open.
  - rewrite decide_False by lia. cbn [readLoop_iter snd].
    change (tracks (exit_readLoop ?x)) with (tracks x).
    change (buffers (exit_readLoop ?x)) with (buffers x).
    rewrite closeAllTracks_tracks, lookup_empty. split; [|done].
    rewrite (closeAllTracks_lookup_in (device_call v4l2.Read s) t b)
      by (try apply heap_ok_device_call; done).
    simpl. by rewrite HB.
Qed.

(** The stream of a track: the chunks read while it is in the map, in the
    order of the reads; its buffer is closed when it has left the map. *)
Lemma run_associated evs s t b B :
  Inv s → tracks s !! t = Some b → buffers s !! b = Some B →
  buffers (run evs s) !! b =
    Some (mkBuffer (buf_data B ++ chunks_of (while_associated t evs))
                   (existsb (removes t) evs)).
Proof.
  revert s B. induction evs as [|e evs IH]; intros s B HI Ht HB.
  - simpl. rewrite app_nil_r, HB.
    destruct (heap_open _ (proj1 HI) _ _ Ht) as (B' & HB' & Hc).
    assert (B' = B) as -> by congruence. destruct B; simpl in *. by rewrite Hc.
  - pose proof (step_associated e s t b B HI Ht HB) as Hs.
    cbn [run foldl while_associated existsb]. fold (run evs (step e s)).
    destruct (removes t e) eqn:Hrm.
    + destruct Hs as [Hb Hn]. simpl. rewrite app_nil_r.
      rewrite (run_closed_track _ _ t); [done|by apply Inv_step| |done].
      apply step_trackObjs. by apply (heap_objs _ (proj1 HI)).
    + destruct Hs as [Hb Hn].
      rewrite (IH _ _ (Inv_step e s HI) Hn Hb). simpl.
      do 2 f_equal. rewrite <-app_assoc. f_equal.
      destruct e as [| | |[|]]; done.
Qed.

(** ** The loop on its own *)

Lemma readLoop_reads chunks outs s :
  readLoop ((ReadOk <$> chunks) ++ outs) s = readLoop outs (after_reads chunks s).
Proof.
  revert s. induction chunks as [|c chunks IH]; intros s; simpl; [done|].
  by rewrite IH.
Qed.

Lemma after_reads_tracks chunks s : tracks (after_reads chunks s) = tracks s.
Proof.
  revert s. induction chunks as [|c chunks IH]; intros s; simpl; [done|].
  by rewrite IH.
Qed.

Lemma after_reads_readLoops chunks s : readLoops (after_reads chunks s) = readLoops s.
Proof.
  revert s. induction chunks as [|c chunks IH]; intros s; simpl; [done|].
  by rewrite IH.
Qed.

Lemma after_reads_device chunks s :
  device (after_reads chunks s) = device s ++ replicate (length chunks) v4l2.Read.
Proof.
  revert s. induction chunks as [|c chunks IH]; intros s; simpl.
  - by rewrite app_nil_r.
  - rewrite IH. simpl. by rewrite <-app_assoc.
Qed.

Lemma Inv_after_reads chunks s : Inv s → Inv (after_reads chunks s).
Proof.
  revert s. induction chunks as [|c chunks IH]; intros s H; simpl; [done|].
  apply IH. by apply (Inv_readLoop_iter (ReadOk c)).
Qed.

(** A buffer that is open when the loop begins is open as long as the
    loop only reads. *)
Lemma after_reads_buffer chunks s t b :
  Inv s → tracks s !! t = Some b →
  ∃ B, buffers (after_reads chunks s) !! b = Some B ∧ buf_closed B = false.
Proof.
  intros H Ht. apply (heap_open _ (proj1 (Inv_after_reads chunks s H)) t).
  by rewrite after_reads_tracks.
Qed.

(** ** Goroutines that run one after the other *)

Import Interleaving.

Lemma steps_GetTrack s :
  steps call_length GetTrack_insert s = (Done (Some (GetTrack s).1), (GetTrack s).2).
Proof. unfold GetTrack; simpl. by case_decide. Qed.

Lemma steps_CloseTrack t s :
  steps call_length (CloseTrack_lookup t) s = (Done None, CloseTrack t s).
Proof.
  unfold CloseTrack; simpl. destruct (tracks s !! t); simpl; [|done].
  by case_decide.
Qed.

Lemma steps_entry c s :
  ∃ r, steps call_length (entry c) s = (Done r, call c s).
Proof.
  destruct c as [|t]; simpl entry; simpl call.
  - rewrite steps_GetTrack. eauto.
  - rewrite steps_CloseTrack. eauto.
Qed.

Lemma run_schedule_app sched1 sched2 p :
  run_schedule (sched1 ++ sched2) p = run_schedule sched2 (run_schedule sched1 p).
Proof. apply foldl_app. Qed.

Lemma sched_step_middle pre th post s :
  sched_step (length pre) (pre ++ th :: post, s) =
    (pre ++ (thread_step th s).1 :: post, (thread_step th s).2).
Proof.
  unfold sched_step. cbn [fst snd].
  rewrite list_lookup_middle by done.
  destruct (thread_step th s) as [th' s'].
  rewrite insert_app_r_alt by done. by rewrite Nat.sub_diag.
Qed.

Lemma run_schedule_replicate n pre th post s :
  run_schedule (replicate n (length pre)) (pre ++ th :: post, s) =
    (pre ++ (steps n th s).1 :: post, (steps n th s).2).
Proof.
  revert th s. induction n as [|n IH]; intros th s; [done|].
  change (run_schedule (replicate (S n) (length pre)) (pre ++ th :: post, s))
    with (run_schedule (replicate n (length pre))
            (sched_step (length pre) (pre ++ th :: post, s))).
  rewrite sched_step_middle, IH. cbn [steps].
  by destruct (thread_step th s).
Qed.

Lemma run_schedule_serial cs pre s :
  ∃ ths,
    run_schedule (mjoin (replicate call_length <$> seq (length pre) (length cs)))
                 (pre ++ (entry <$> cs), s)
      = (pre ++ ths, calls cs s)
    ∧ forallb finished ths = true.
Proof.
  revert pre s. induction cs as [|c cs IH]; intros pre s.
  - exists []. done.
  - cbn [length seq fmap list_fmap mjoin list_join].
    rewrite run_schedule_app, run_schedule_replicate.
    destruct (steps_entry c s) as [r ->]. cbn [fst snd].
    destruct (IH (pre ++ [Done r]) (call c s)) as (ths & Hrun & Hfin).
    rewrite length_app, Nat.add_1_r in Hrun. rewrite <-app_assoc in Hrun.
    exists (Done r :: ths). split; [|done].
    change (pre ++ [Done r] ++ (entry <$> cs))
      with (pre ++ Done r :: (entry <$> cs)) in Hrun.
    refine (eq_trans Hrun _). by rewrite <-app_assoc.
Qed.

Lemma Inv_calls cs s : Inv s → Inv (calls cs s).
Proof.
  revert s. induction cs as [|c cs IH]; intros s H; simpl; [done|].
  apply IH. destruct c; cbn [call]; [by apply Inv_GetTrack|by apply Inv_CloseTrack].
Qed.

Lemma reachable_src0 : reachable src0.
Proof.
  by apply (reachable_new H264 driver_ok "/dev/video0" 640 480 1000000
              false false src0 (device src0)).
Qed.

Lemma reachable_run evs s : reachable s → reachable (run evs s).
Proof.
  revert s. induction evs as [|e evs IH]; intros s H; simpl; [done|].
  apply IH. by constructor.
Qed.

(** * The properties of the source *)

(** ** Reference counting of the device *)

(** C2. In every state that a source reaches, the device is started if and
    only if the map of tracks is not empty, and its history never has two
    [Start] in a row nor two [Stop] in a row.  [GetTrack] adds one track
    and calls [Start] exactly when the map was empty; [CloseTrack] calls
    [Stop] exactly when it removes the only track of the map, and calls
    nothing otherwise. *)
Theorem device_running_iff_tracks s :
  reachable s →
  (v4l2.running (device s) = true ↔ tracks s ≠ ∅)
  ∧ v4l2.alternating (device s) = true
  ∧ calls_added s (GetTrack s).2
      (if decide (size (tracks s) = 0) then [v4l2.Start] else [])
  ∧ size (tracks (GetTrack s).2) = S (size (tracks s))
  ∧ v4l2.alternating (device (GetTrack s).2) = true
  ∧ ∀ t,
      calls_added s (CloseTrack t s)
        (if decide (is_Some (tracks s !! t) ∧ size (tracks s) = 1)
         then [v4l2.Stop] else [])
      ∧ size (tracks (CloseTrack t s)) =
          size (tracks s) - (if decide (is_Some (tracks s !! t)) then 1 else 0)
      ∧ v4l2.alternating (device (CloseTrack t s)) = true.
Proof.
  intros Hr. pose proof (reachable_Inv s Hr) as HI.
  destruct HI as [H B]. pose proof (heap_ok_fresh s H) as Hf.
  split_and!.
  - rewrite (bk_running _ B). case_bool_decide; simpl; split; try done.
  - apply B.
  - unfold calls_added. rewrite GetTrack_eq by done. simpl.
    destruct (decide (tracks s = ∅)) as [He|He],
      (decide (size (tracks s) = 0)) as [Hs|Hs]; try done.
    + rewrite He, map_size_empty in Hs. done.
    + apply map_size_empty_inv in Hs. done.
  - rewrite GetTrack_tracks. by rewrite map_size_insert_None.
  - apply (bookkeeping_GetTrack s H B).
  - intros t. split_and!.
    + unfold calls_added. destruct (tracks s !! t) as [b|] eqn:E.
      * rewrite (CloseTrack_eq _ _ _ E). simpl.
        destruct (decide (size (tracks s) = 1)) as [Hs|Hs].
        -- by rewrite decide_True by (split; [eauto|done]).
        -- by rewrite decide_False by tauto.
      * rewrite CloseTrack_absent by done.
        rewrite decide_False by (intros [[]%is_Some_None _]). by rewrite app_nil_r.
    + rewrite CloseTrack_tracks, map_size_delete.
      destruct (tracks s !! t) as [b|] eqn:E.
      * rewrite decide_True by eauto. simpl. lia.
      * rewrite decide_False by (intros []%is_Some_None). simpl. lia.
    + apply (bookkeeping_CloseTrack s t B).
Qed.

Lemma device_running_iff_tracks_witness :
  reachable (run [EvGetTrack; EvGetTrack; EvCloseTrack 0] src0)
  ∧ calls_added (run [EvGetTrack; EvGetTrack; EvCloseTrack 0] src0)
      (CloseTrack 1 (run [EvGetTrack; EvGetTrack; EvCloseTrack 0] src0))
      [v4l2.Stop].
Proof.
  split; [apply reachable_run, reachable_src0|].
  apply (device_running_iff_tracks
           (run [EvGetTrack; EvGetTrack; EvCloseTrack 0] src0)).
  apply reachable_run, reachable_src0.
Defined.

(** ** Closing a track twice *)

(** C5. [CloseTrack] on a track that is not in the map, or not any more,
    returns and leaves the whole state as it is: the map, the history of
    the device and every buffer.  Closing a track twice is closing it
    once. *)
Theorem CloseTrack_idempotent s t :
  (tracks s !! t = None → CloseTrack t s = s)
  ∧ CloseTrack t (CloseTrack t s) = CloseTrack t s.
Proof.
  split; [apply CloseTrack_absent|].
  apply CloseTrack_absent. rewrite CloseTrack_tracks. apply lookup_delete_eq.
Qed.

Lemma CloseTrack_idempotent_witness :
  tracks src0 !! 7 = None ∧ CloseTrack 7 src0 = src0.
Proof.
  split; [reflexivity|].
  apply (proj1 (CloseTrack_idempotent src0 7)). reflexivity.
Defined.

(** ** Fan-out *)

(** C1. A turn of the loop that reads a chunk appends that chunk to the
    buffer of every track that is in the map at that turn, changes no
    other buffer and leaves the map as it is.  Hence the stream of a track
    that [GetTrack] has just returned: whatever happens next, its buffer
    holds the chunks read while the track is in the map, all of them and
    in the order of the reads, and it is closed once the track has left
    the map. *)
Theorem fan_out_streams s :
  reachable s →
  (∀ chunk, 0 < readLoops s →
     tracks (step (EvRead (ReadOk chunk)) s) = tracks s
     ∧ (∀ t b, tracks s !! t = Some b →
          ∃ B, buffers s !! b = Some B
               ∧ buffers (step (EvRead (ReadOk chunk)) s) !! b
                   = Some (mkBuffer (buf_data B ++ [chunk]) false))
     ∧ (∀ b, (∀ t, tracks s !! t ≠ Some b) →
          buffers (step (EvRead (ReadOk chunk)) s) !! b = buffers s !! b))
  ∧ (∃ b, trackObjs (GetTrack s).2 !! (GetTrack s).1 = Some b
          ∧ tracks (GetTrack s).2 !! (GetTrack s).1 = Some b
          ∧ ∀ evs,
              buffers (run evs (GetTrack s).2) !! b =
                Some (mkBuffer
                        (chunks_of (while_associated (GetTrack s).1 evs))
                        (existsb (removes (GetTrack s).1) evs))).
Proof.
  intros Hr. pose proof (reachable_Inv s Hr) as HI. split.
  - intros chunk Hl. cbn [step]. rewrite decide_False by lia.
    cbn [readLoop_iter snd]. split_and!.
    + done.
    + intros t b Ht.
      destruct (heap_open _ (proj1 HI) _ _ Ht) as (B & HB & Hc).
      exists B. split; [done|].
      rewrite (writeAll_lookup_in chunk (device_call v4l2.Read s) t b)
        by (try apply heap_ok_device_call; done || apply HI).
      simpl. rewrite HB. simpl. by rewrite Buffer_Write_open.
    + intros b Hn.
      by apply (writeAll_lookup_notin chunk (device_call v4l2.Read s)).
  - exists (length (buffers s)).
    assert (tracks (GetTrack s).2 !! (GetTrack s).1 = Some (length (buffers s)))
      as Ht by (rewrite GetTrack_tracks, GetTrack_track; apply lookup_insert_eq).
    assert (buffers (GetTrack s).2 !! length (buffers s) = Some Buffer_new)
      as HB by (rewrite GetTrack_buffers; by apply list_lookup_middle).
    split_and!.
    + rewrite GetTrack_trackObjs, GetTrack_track. by apply list_lookup_middle.
    + done.
    + intros evs.
      by rewrite (run_associated evs _ _ _ _ (Inv_GetTrack s HI) Ht HB).
Qed.

Lemma fan_out_streams_witness :
  reachable (run [EvGetTrack; EvRead (ReadOk [Byte.x41])] src0)
  ∧ buffers
      (run [EvRead (ReadOk [Byte.x42]); EvRead (ReadOk [Byte.x43]);
            EvRead (ReadErr (errDevice "EIO"))]
           (GetTrack (run [EvGetTrack; EvRead (ReadOk [Byte.x41])] src0)).2)
      !! 1
    = Some (mkBuffer [[Byte.x42]; [Byte.x43]] true).
Proof.
  split; [apply reachable_run, reachable_src0|].
  destruct (proj2 (fan_out_streams
                     (run [EvGetTrack; EvRead (ReadOk [Byte.x41])] src0)
                     (reachable_run _ _ reachable_src0)))
    as (b & Ho & _ & Hs).
  injection Ho as <-.
  apply (Hs [EvRead (ReadOk [Byte.x42]); EvRead (ReadOk [Byte.x43]);
             EvRead (ReadErr (errDevice "EIO"))]).
Defined.

(** The scenario of the device that yields [A], [B], [C] and then fails:
    the track opened before the reads gets [A, B, C], the track opened
    after [A] gets [B, C], and both reach the end of their stream. *)
Example fan_out_scenario :
  buffers
    (run [EvGetTrack; EvRead (ReadOk [Byte.x41]); EvGetTrack;
          EvRead (ReadOk [Byte.x42]); EvRead (ReadOk [Byte.x43]);
          EvRead (ReadErr (errDevice "EIO"))] src0)
  = [mkBuffer [[Byte.x41]; [Byte.x42]; [Byte.x43]] true;
     mkBuffer [[Byte.x42]; [Byte.x43]] true].
Proof. reflexivity. Qed.

(** ** A read error *)

(** C4. When [Read] fails, the loop returns, and the deferred function has
    closed every track that was in the map: the map is empty, the buffer
    of each of these tracks is closed, and [Stop] was called if there was a
    track at all.  [Read] was called once for every chunk and once for the
    error, and what the device would have answered next is never read. *)
Theorem readLoop_read_error s chunks e unread :
  reachable s →
  ∃ s',
    readLoop ((ReadOk <$> chunks) ++ ReadErr e :: unread) s = Returned s' unread
    ∧ tracks s' = ∅
    ∧ (∀ t b, tracks s !! t = Some b →
         ∃ B, buffers s' !! b = Some B ∧ buf_closed B = true)
    ∧ device s' =
        device s ++ replicate (S (length chunks)) v4l2.Read
                 ++ (if decide (tracks s = ∅) then [] else [v4l2.Stop])
    ∧ readLoops s' = pred (readLoops s).
Proof.
  intros Hr. pose proof (reachable_Inv s Hr) as HI.
  rewrite readLoop_reads. cbn [readLoop readLoop_iter].
  set (s1 := device_call v4l2.Read (after_reads chunks s)).
  exists (exit_readLoop (closeAllTracks s1)). split_and!.
  - done.
  - apply closeAllTracks_tracks.
  - intros t b Ht.
    destruct (after_reads_buffer chunks s t b HI Ht) as (B & HB & Hc).
    exists (Buffer_Close B). split; [|done].
    change (buffers (exit_readLoop ?x)) with (buffers x).
    rewrite (closeAllTracks_lookup_in s1 t b).
    + change (buffers s1) with (buffers (after_reads chunks s)). by rewrite HB.
    + apply heap_ok_device_call, Inv_after_reads, HI.
    + change (tracks s1) with (tracks (after_reads chunks s)).
      by rewrite after_reads_tracks.
  - change (device (exit_readLoop ?x)) with (device x).
    rewrite closeAllTracks_device.
    change (tracks s1) with (tracks (after_reads chunks s)).
    change (device s1) with (device (after_reads chunks s) ++ [v4l2.Read]).
    rewrite after_reads_tracks, after_reads_device.
    rewrite <-!app_assoc. f_equal.
    replace (S (length chunks)) with (length chunks + 1) by lia.
    rewrite replicate_add. by rewrite <-app_assoc.
  - change (readLoops (exit_readLoop ?x)) with (pred (readLoops x)).
    rewrite closeAllTracks_readLoops.
    change (readLoops s1) with (readLoops (after_reads chunks s)).
    by rewrite after_reads_readLoops.
Qed.

Lemma readLoop_read_error_witness :
  reachable (run [EvGetTrack; EvGetTrack] src0)
  ∧ ∃ s',
      readLoop [ReadOk [Byte.x41]; ReadErr (errDevice "EIO"); ReadOk [Byte.x42]]
               (run [EvGetTrack; EvGetTrack] src0)
        = Returned s' [ReadOk [Byte.x42]]
      ∧ tracks s' = ∅.
Proof.
  split; [apply reachable_run, reachable_src0|].
  destruct (readLoop_read_error (run [EvGetTrack; EvGetTrack] src0)
              [[Byte.x41]] (errDevice "EIO") [ReadOk [Byte.x42]]
              (reachable_run _ _ reachable_src0))
    as (s' & Hl & Ht & _).
  exists s'. split; [exact Hl|exact Ht].
Defined.

(** ** [GetTrack] after [Close] *)

Lemma GetTrack_usable s : usable (GetTrack s).1 (GetTrack s).2.
Proof.
  exists (length (buffers s)), Buffer_new. split_and!.
  - rewrite GetTrack_tracks, GetTrack_track. apply lookup_insert_eq.
  - rewrite GetTrack_buffers. by apply list_lookup_middle.
  - done.
Qed.

(** C3, as the source has it.  [GetTrack] has no error result and the
    source keeps no mark of having been closed, so [GetTrack] after
    [Close] does not fail.  [Close] leaves the map empty and ends the
    history of the device with [Close]; the next [GetTrack] returns a
    usable track, calls [Start] on that device and launches a loop, and
    every later [GetTrack] returns a usable track as well. *)
Theorem GetTrack_after_Close s r :
  reachable s →
  tracks (Close r s).2 = ∅
  ∧ last (device (Close r s).2) = Some v4l2.Close
  ∧ usable (GetTrack (Close r s).2).1 (GetTrack (Close r s).2).2
  ∧ calls_added (Close r s).2 (GetTrack (Close r s).2).2 [v4l2.Start]
  ∧ readLoops (GetTrack (Close r s).2).2 = S (readLoops (Close r s).2)
  ∧ ∀ evs,
      usable (GetTrack (run evs (Close r s).2)).1
             (GetTrack (run evs (Close r s).2)).2.
Proof.
  intros Hr. pose proof (Inv_Close r s (reachable_Inv s Hr)) as HI.
  assert (tracks (Close r s).2 = ∅) as He by apply closeAllTracks_tracks.
  pose proof (heap_ok_fresh _ (proj1 HI)) as Hf.
  split_and!.
  - done.
  - simpl. apply last_snoc.
  - apply GetTrack_usable.
  - unfold calls_added. rewrite (GetTrack_eq _ Hf).
    cbn [snd device]. by rewrite decide_True.
  - rewrite (GetTrack_eq _ Hf). cbn [snd readLoops].
    rewrite decide_True by done. lia.
  - intros evs. apply GetTrack_usable.
Qed.

Lemma GetTrack_after_Close_witness :
  reachable src0
  ∧ calls_added (Close None src0).2 (GetTrack (Close None src0).2).2 [v4l2.Start].
Proof.
  split; [apply reachable_src0|].
  apply (GetTrack_after_Close src0 None reachable_src0).
Defined.

(** C3, as it is claimed, fails on a source that was just built and then
    closed: [GetTrack] returns a usable track and calls [Start]. *)
Lemma GetTrack_after_Close_counterexample :
  reachable (Close None src0).2
  ∧ v4l2.Close ∈ device (Close None src0).2
  ∧ ¬ GetTrack_fails (Close None src0).2
  ∧ usable (GetTrack (Close None src0).2).1 (GetTrack (Close None src0).2).2
  ∧ device (GetTrack (Close None src0).2).2
      = device (Close None src0).2 ++ [v4l2.Start].
Proof.
  split_and!.
  - apply (reachable_step (EvClose None)), reachable_src0.
  - vm_compute. do 2 right. left.
  - intros [Hn _]. apply Hn, GetTrack_usable.
  - apply GetTrack_usable.
  - reflexivity.
Qed.

(** ** Calls that overlap *)

(** C6, as the source has it.  No call takes a lock.  When the calls are
    serialised, each goroutine running [GetTrack] or [CloseTrack] from its
    first statement to its last before the next one begins, every
    goroutine finishes, the state is that of the same calls made one after
    the other, and the device is started if and only if there are tracks,
    with no [Start] or [Stop] twice in a row.  The same holds of whole
    calls of [GetTrack], [CloseTrack] and [Close] and whole turns of the
    loop that happen one at a time. *)
Theorem serial_calls_keep_bookkeeping cs s :
  reachable s →
  forallb finished
    (run_schedule (serial_schedule (length cs)) (entry <$> cs, s)).1 = true
  ∧ (run_schedule (serial_schedule (length cs)) (entry <$> cs, s)).2
      = calls cs s
  ∧ bookkeeping
      (run_schedule (serial_schedule (length cs)) (entry <$> cs, s)).2
  ∧ ∀ evs, bookkeeping (run evs s).
Proof.
  intros Hr. destruct (run_schedule_serial cs [] s) as (ths & Hrun & Hfin).
  change (run_schedule (serial_schedule (length cs)) (entry <$> cs, s)
            = (ths, calls cs s)) in Hrun.
  rewrite Hrun. cbn [fst snd].
  split_and!; [done..| |].
  - apply Inv_calls, reachable_Inv, Hr.
  - intros evs. apply Inv_run, reachable_Inv, Hr.
Qed.

Lemma serial_calls_keep_bookkeeping_witness :
  reachable src0
  ∧ bookkeeping
      (run_schedule (serial_schedule 2)
                    ([GetTrack_insert; GetTrack_insert], src0)).2.
Proof.
  split; [apply reachable_src0|].
  apply (serial_calls_keep_bookkeeping [CallGetTrack; CallGetTrack] src0
           reachable_src0).
Defined.

(** C6, as it is claimed, fails: two goroutines in [GetTrack], each
    overtaken by the other between the insertion and the test of the
    length.  Both finish, the map holds two tracks, and the device was
    never started. *)
Lemma interleaved_GetTrack_counterexample :
  reachable src0
  ∧ forallb finished
      (run_schedule [0; 1; 0; 1] (entry <$> [CallGetTrack; CallGetTrack], src0)).1
    = true
  ∧ size (tracks
      (run_schedule [0; 1; 0; 1] (entry <$> [CallGetTrack; CallGetTrack], src0)).2)
    = 2
  ∧ v4l2.running (device
      (run_schedule [0; 1; 0; 1] (entry <$> [CallGetTrack; CallGetTrack], src0)).2)
    = false
  ∧ ¬ bookkeeping
      (run_schedule [0; 1; 0; 1] (entry <$> [CallGetTrack; CallGetTrack], src0)).2.
Proof.
  split_and!; [apply reachable_src0|reflexivity..|].
  intros [Hrun _ _]. vm_compute in Hrun. discriminate.
Qed.

(** ** Construction *)

(** C7. The constructor returns a source or an error, never both and never
    neither.  When [Open] fails its error is returned as it is, with no
    source; so is the error of [SetBitrate], and that of a flip that was
    asked for.  A source that is returned comes with no error, an empty
    map of tracks, and the handle that the calls were made on. *)
Theorem NewV4L2MediaSource_no_partial_object
    fmt drv filename width height bitrate hflip vflip :
  let cfg := v4l2.mkConfig width height fmt true in
  let r := NewV4L2MediaSource fmt drv filename width height bitrate hflip vflip in
  (∀ e, v4l2.open_result drv filename cfg = Some e → r.1 = (None, Some e))
  ∧ (∀ e, v4l2.open_result drv filename cfg = None →
          v4l2.setBitrate_result drv bitrate = Some e →
          r.1 = (None, Some e))
  ∧ (∀ e, v4l2.open_result drv filename cfg = None →
          v4l2.setBitrate_result drv bitrate = None →
          hflip = true → v4l2.flipHorizontal_result drv = Some e →
          r.1 = (None, Some e))
  ∧ (∀ e, v4l2.open_result drv filename cfg = None →
          v4l2.setBitrate_result drv bitrate = None →
          (hflip = true → v4l2.flipHorizontal_result drv = None) →
          vflip = true → v4l2.flipVertical_result drv = Some e →
          r.1 = (None, Some e))
  ∧ (∀ s, r.1.1 = Some s →
          r.1.2 = None ∧ tracks s = ∅ ∧ size (tracks s) = 0 ∧ device s = r.2)
  ∧ (r.1.1 = None → ∃ e, r.1.2 = Some e).
Proof.
  intros cfg r. subst cfg r. unfold NewV4L2MediaSource. split_and!.
  - by intros e ->.
  - by intros e -> ->.
  - by intros e -> -> -> ->.
  - intros e -> -> Hh -> ->. destruct hflip; [by rewrite Hh|done].
  - intros s.
    destruct (v4l2.open_result drv filename _),
      (v4l2.setBitrate_result drv bitrate),
      hflip, (v4l2.flipHorizontal_result drv), vflip,
      (v4l2.flipVertical_result drv); simpl; intros [= <-]; done.
  - destruct (v4l2.open_result drv filename _),
      (v4l2.setBitrate_result drv bitrate),
      hflip, (v4l2.flipHorizontal_result drv), vflip,
      (v4l2.flipVertical_result drv); simpl; intros [=]; eauto.
Qed.

Lemma NewV4L2MediaSource_no_partial_object_witness :
  (NewV4L2MediaSource H264
     (v4l2.mkDriver (λ _ _, None) (λ _, None) None (Some (errDevice "EINVAL")))
     "/dev/video0" 640 480 1000000 false true).1
  = (None, Some (errDevice "EINVAL")).
Proof.
  apply (proj1 (proj2 (proj2 (proj2
    (NewV4L2MediaSource_no_partial_object H264
       (v4l2.mkDriver (λ _ _, None) (λ _, None) None (Some (errDevice "EINVAL")))
       "/dev/video0" 640 480 1000000 false true)))));
    [reflexivity|reflexivity|discriminate|reflexivity|reflexivity].
Defined.

(** C8. Whatever the URL, [NewRTSPAudioVideoSource] returns no source and
    the error [errNotImplemented], which is none of the other errors. *)
Theorem NewRTSPAudioVideoSource_not_implemented url :
  NewRTSPAudioVideoSource url = (None, Some errNotImplemented)
  ∧ errNotImplemented ≠ errNotSupported
  ∧ ∀ msg, errNotImplemented ≠ errDevice msg.
Proof. split_and!; [reflexivity|discriminate|intros msg; discriminate]. Qed.

(** C9. Whatever its arguments, the constructor calls [Open] once, first,
    on the file it was given, with the width and height it was given, the
    format [V4L2_PIX_FMT_H264] and [RepeatSequenceHeader] set. *)
Theorem NewV4L2MediaSource_opens_H264
    fmt drv filename width height bitrate hflip vflip :
  head (NewV4L2MediaSource fmt drv filename width height bitrate hflip vflip).2
    = Some (v4l2.Open filename (v4l2.mkConfig width height fmt true))
  ∧ List.filter is_Open
      (NewV4L2MediaSource fmt drv filename width height bitrate hflip vflip).2
    = [v4l2.Open filename (v4l2.mkConfig width height fmt true)].
Proof.
  unfold NewV4L2MediaSource.
  destruct (v4l2.open_result drv filename _),
    (v4l2.setBitrate_result drv bitrate),
    hflip, (v4l2.flipHorizontal_result drv), vflip,
    (v4l2.flipVertical_result drv); split; reflexivity.
Qed.

(** C10. When [Open] succeeds and the constructor returns an error, no
    source is returned and the calls made on the device are [Open] and
    controls only: no [Close], nor any other call, follows the failure. *)
Theorem NewV4L2MediaSource_error_leaves_device_open
    fmt drv filename width height bitrate hflip vflip e :
  v4l2.open_result drv filename (v4l2.mkConfig width height fmt true) = None →
  (NewV4L2MediaSource fmt drv filename width height bitrate hflip vflip).1.2
    = Some e →
  (NewV4L2MediaSource fmt drv filename width height bitrate hflip vflip).1.1
    = None
  ∧ head (NewV4L2MediaSource fmt drv filename width height bitrate hflip vflip).2
    = Some (v4l2.Open filename (v4l2.mkConfig width height fmt true))
  ∧ v4l2.count v4l2.Close
      (NewV4L2MediaSource fmt drv filename width height bitrate hflip vflip).2
    = 0
  ∧ forallb setup_call
      (NewV4L2MediaSource fmt drv filename width height bitrate hflip vflip).2
    = true
  ∧ (v4l2.setBitrate_result drv bitrate = Some e
     ∨ (hflip = true ∧ v4l2.flipHorizontal_result drv = Some e)
     ∨ (vflip = true ∧ v4l2.flipVertical_result drv = Some e)).
Proof.
  unfold NewV4L2MediaSource. intros ->.
  destruct (v4l2.setBitrate_result drv bitrate),
    hflip, (v4l2.flipHorizontal_result drv), vflip,
    (v4l2.flipVertical_result drv); simpl; intros [= <-];
    split_and!; try reflexivity; auto.
Qed.

Lemma NewV4L2MediaSource_error_leaves_device_open_witness :
  (NewV4L2MediaSource H264
     (v4l2.mkDriver (λ _ _, None) (λ _, Some (errDevice "EINVAL")) None None)
     "/dev/video0" 640 480 1000000 true true).2
  = [v4l2.Open "/dev/video0" (v4l2.mkConfig 640 480 H264 true);
     v4l2.SetBitrate 1000000]
  ∧ v4l2.count v4l2.Close
      (NewV4L2MediaSource H264
         (v4l2.mkDriver (λ _ _, None) (λ _, Some (errDevice "EINVAL")) None None)
         "/dev/video0" 640 480 1000000 true true).2
    = 0.
Proof.
  split; [reflexivity|].
  apply (NewV4L2MediaSource_error_leaves_device_open H264
           (v4l2.mkDriver (λ _ _, None) (λ _, Some (errDevice "EINVAL")) None None)
           "/dev/video0" 640 480 1000000 true true (errDevice "EINVAL"));
    reflexivity.
Defined.

(** A [GetTrack] that overtakes a [CloseTrack] between its deletion and its
    test of the length: [Start] is called on a started device, [Stop] is
    not called, and the history of the device has two [Start] in a row. *)
Example interleaved_double_Start :
  device
    (run_schedule [0; 0; 1; 1; 1; 1; 0; 0]
       (entry <$> [CallCloseTrack 0; CallGetTrack], (GetTrack src0).2)).2
  = device src0 ++ [v4l2.Start; v4l2.Start]
  ∧ v4l2.alternating
      (device
         (run_schedule [0; 0; 1; 1; 1; 1; 0; 0]
            (entry <$> [CallCloseTrack 0; CallGetTrack], (GetTrack src0).2)).2)
    = false.
Proof. split; reflexivity. Qed.

(** * Further properties of the source *)

(** ** The order in which a loop goes through the map *)

Lemma size_ge_2 (m : gmap nat nat) t1 t2 b1 b2 :
  t1 ≠ t2 → m !! t1 = Some b1 → m !! t2 = Some b2 →
  size m ≠ 1 ∧ (size (delete t1 m) = 1 ↔ size (delete t2 m) = 1).
Proof.
  intros Hne H1 H2.
  assert (size (delete t2 m) ≠ 0) as Hd.
  { eapply (map_size_ne_0_lookup_2 _ t1). by rewrite lookup_delete_ne. }
  rewrite !map_size_delete, H1, H2 in *. lia.
Qed.

Lemma CloseTrack_swap s t1 t2 :
  CloseTrack t1 (CloseTrack t2 s) = CloseTrack t2 (CloseTrack t1 s).
Proof.
  destruct (decide (t1 = t2)) as [->|Hne]; [done|].
  destruct (tracks s !! t1) as [b1|] eqn:E1; last first.
  { rewrite (CloseTrack_absent s t1) by done.
    apply CloseTrack_absent. by rewrite CloseTrack_tracks, lookup_delete_ne. }
  destruct (tracks s !! t2) as [b2|] eqn:E2; last first.
  { rewrite (CloseTrack_absent s t2) by done. symmetry.
    apply CloseTrack_absent. by rewrite CloseTrack_tracks, lookup_delete_ne. }
  destruct (size_ge_2 _ _ _ _ _ Hne E1 E2) as [Hs Hiff].
  assert (tracks (CloseTrack t2 s) !! t1 = Some b1) as E1'
    by by rewrite CloseTrack_tracks, lookup_delete_ne.
  assert (tracks (CloseTrack t1 s) !! t2 = Some b2) as E2'
    by by rewrite CloseTrack_tracks, lookup_delete_ne.
  rewrite (CloseTrack_eq _ _ _ E1'), (CloseTrack_eq _ _ _ E2').
  rewrite !CloseTrack_tracks, !CloseTrack_trackObjs, !CloseTrack_readLoops.
  rewrite (CloseTrack_eq _ _ _ E1), (CloseTrack_eq _ _ _ E2). cbn [device buffers].
  rewrite !decide_False by done. rewrite !app_nil_r. f_equal.
  - destruct (decide (size (delete t2 (tracks s)) = 1)),
      (decide (size (delete t1 (tracks s)) = 1)); tauto || done.
  - apply delete_delete.
  - destruct (decide (b1 = b2)) as [->|Hb]; [done|].
    by apply list_alter_alter_ne.
Qed.

(** X1. The order in which tracks are closed does not matter: two
    [CloseTrack] commute, and the loop of [Close] and of the deferred
    function of [readLoop] ends in the same state whatever the order in
    which [range] hands out the keys of the map. *)
Theorem closing_order_irrelevant s :
  (∀ t1 t2, CloseTrack t1 (CloseTrack t2 s) = CloseTrack t2 (CloseTrack t1 s))
  ∧ ∀ keys, keys ≡ₚ (map_to_list (tracks s)).*1 →
      foldr CloseTrack s keys = closeAllTracks s.
Proof.
  split; [intros; apply CloseTrack_swap|].
  intros keys Hp. unfold closeAllTracks.
  apply (foldr_permutation_proper (=) CloseTrack s); [|done].
  intros t1 t2 s'. apply CloseTrack_swap.
Qed.

Lemma closing_order_irrelevant_witness :
  foldr CloseTrack (run [EvGetTrack; EvGetTrack; EvGetTrack] src0) [1; 2; 0]
  = closeAllTracks (run [EvGetTrack; EvGetTrack; EvGetTrack] src0).
Proof.
  apply (proj2 (closing_order_irrelevant
                  (run [EvGetTrack; EvGetTrack; EvGetTrack] src0))).
  vm_compute. apply perm_swap.
Defined.

Lemma Buffer_Write_swap chunk (b1 b2 : nat) (h : list Buffer) :
  alter (Buffer_Write chunk) b1 (alter (Buffer_Write chunk) b2 h)
  = alter (Buffer_Write chunk) b2 (alter (Buffer_Write chunk) b1 h).
Proof.
  destruct (decide (b1 = b2)) as [->|Hb]; [done|].
  by apply list_alter_alter_ne.
Qed.

(** X2. The state after a turn of the loop that reads a chunk does not
    depend on the order in which [range] hands out the buffers of the
    map. *)
Theorem writing_order_irrelevant chunk s ptrs :
  ptrs ≡ₚ (map_to_list (tracks s)).*2 →
  set_buffers
    (foldr (λ buffer h, alter (Buffer_Write chunk) buffer h) (buffers s) ptrs) s
  = writeAll chunk s.
Proof.
  intros Hp. unfold writeAll. f_equal.
  apply (foldr_permutation_proper (=)
           (λ buffer h, alter (Buffer_Write chunk) buffer h) (buffers s));
    [|done].
  intros b1 b2 h. apply Buffer_Write_swap.
Qed.

Lemma writing_order_irrelevant_witness :
  set_buffers
    (foldr (λ buffer h, alter (Buffer_Write [Byte.x41]) buffer h)
       (buffers (run [EvGetTrack; EvGetTrack; EvGetTrack] src0)) [1; 2; 0])
    (run [EvGetTrack; EvGetTrack; EvGetTrack] src0)
  = writeAll [Byte.x41] (run [EvGetTrack; EvGetTrack; EvGetTrack] src0).
Proof.
  apply (writing_order_irrelevant [Byte.x41]
           (run [EvGetTrack; EvGetTrack; EvGetTrack] src0) [1; 2; 0]).
  vm_compute. apply perm_swap.
Defined.

(** ** [Close] *)

Lemma closeAllTracks_empty s : tracks s = ∅ → closeAllTracks s = s.
Proof. intros He. unfold closeAllTracks. by rewrite He, map_to_list_empty. Qed.

(** X3. [Close] returns what [ms.device.Close()] returns.  It leaves the
    map empty, has closed the buffer of every track that was in the map
    and touched no other buffer, has called [Stop] once if there was a
    track and not at all otherwise, and then [Close], and it ends no read
    loop by itself. *)
Theorem Close_closes_everything s r :
  reachable s →
  (Close r s).1 = r
  ∧ tracks (Close r s).2 = ∅
  ∧ device (Close r s).2 =
      device s ++ (if decide (tracks s = ∅) then [] else [v4l2.Stop])
               ++ [v4l2.Close]
  ∧ (∀ t b, tracks s !! t = Some b →
       ∃ B, buffers s !! b = Some B
            ∧ buffers (Close r s).2 !! b = Some (Buffer_Close B))
  ∧ (∀ b, (∀ t, tracks s !! t ≠ Some b) →
       buffers (Close r s).2 !! b = buffers s !! b)
  ∧ readLoops (Close r s).2 = readLoops s.
Proof.
  intros Hr. pose proof (reachable_Inv s Hr) as [H B]. cbn [Close fst snd].
  split_and!.
  - done.
  - apply closeAllTracks_tracks.
  - cbn [device_call set_device device]. rewrite closeAllTracks_device.
    by rewrite <-app_assoc.
  - intros t b Ht. destruct (heap_open _ H _ _ Ht) as (B' & HB & _).
    exists B'. split; [done|]. cbn [device_call set_device buffers].
    by rewrite (closeAllTracks_lookup_in s t b), HB.
  - intros b Hn. by apply closeAllTracks_lookup_notin.
  - apply closeAllTracks_readLoops.
Qed.

Lemma Close_closes_everything_witness :
  reachable (run [EvGetTrack; EvGetTrack] src0)
  ∧ device (Close None (run [EvGetTrack; EvGetTrack] src0)).2
    = device src0 ++ [v4l2.Start; v4l2.Stop; v4l2.Close].
Proof.
  split; [apply reachable_run, reachable_src0|].
  apply (Close_closes_everything (run [EvGetTrack; EvGetTrack] src0) None
           (reachable_run _ _ reachable_src0)).
Defined.

(** X4. [Close] is not guarded against being called again: a second
    [Close] finds no track to close, calls neither [Stop] nor anything
    else but [ms.device.Close()] once more, and returns what that call
    returns. *)
Theorem Close_again s r1 r2 :
  Close r2 (Close r1 s).2 = (r2, device_call v4l2.Close (Close r1 s).2)
  ∧ device (Close r2 (Close r1 s).2).2 = device (Close r1 s).2 ++ [v4l2.Close]
  ∧ v4l2.count v4l2.Close (device (Close r2 (Close r1 s).2).2)
    = 2 + v4l2.count v4l2.Close (device (closeAllTracks s)).
Proof.
  assert (Close r2 (Close r1 s).2 = (r2, device_call v4l2.Close (Close r1 s).2))
    as Heq.
  { unfold Close at 1. f_equal. f_equal. apply closeAllTracks_empty.
    apply closeAllTracks_tracks. }
  split_and!; [done|by rewrite Heq|].
  rewrite Heq. cbn [snd Close device_call set_device device].
  rewrite !count_snoc. rewrite !decide_True by done. lia.
Qed.

(** ** [GetTrack] *)

(** X5. The track that [GetTrack] returns is new: it is not in the map and
    was never returned before.  Its buffer is new as well, empty and open.
    The tracks that are in the map stay, each with its buffer, and no
    buffer that existed changes. *)
Theorem GetTrack_fresh s :
  reachable s →
  tracks s !! (GetTrack s).1 = None
  ∧ trackObjs s !! (GetTrack s).1 = None
  ∧ (∃ b, tracks (GetTrack s).2 !! (GetTrack s).1 = Some b
          ∧ buffers s !! b = None
          ∧ buffers (GetTrack s).2 !! b = Some (mkBuffer [] false))
  ∧ (∀ t b, tracks s !! t = Some b →
       t ≠ (GetTrack s).1 ∧ tracks (GetTrack s).2 !! t = Some b)
  ∧ (∀ b B, buffers s !! b = Some B → buffers (GetTrack s).2 !! b = Some B).
Proof.
  intros Hr. pose proof (reachable_Inv s Hr) as [H B].
  pose proof (heap_ok_fresh s H) as Hf. rewrite GetTrack_track.
  split_and!.
  - done.
  - by apply lookup_ge_None.
  - exists (length (buffers s)). split_and!.
    + rewrite GetTrack_tracks. apply lookup_insert_eq.
    + by apply lookup_ge_None.
    + rewrite GetTrack_buffers. by apply list_lookup_middle.
  - intros t b Ht.
    assert (t ≠ length (trackObjs s)) as Hne by (intros ->; congruence).
    split; [done|]. rewrite GetTrack_tracks. by rewrite lookup_insert_ne.
  - intros b B' HB. rewrite GetTrack_buffers. by apply lookup_app_l_Some.
Qed.

Lemma GetTrack_fresh_witness :
  reachable (run [EvGetTrack; EvCloseTrack 0] src0)
  ∧ tracks (run [EvGetTrack; EvCloseTrack 0] src0)
      !! (GetTrack (run [EvGetTrack; EvCloseTrack 0] src0)).1 = None
  ∧ (GetTrack (run [EvGetTrack; EvCloseTrack 0] src0)).1 = 1.
Proof.
  split; [apply reachable_run, reachable_src0|]. split; [|reflexivity].
  apply (GetTrack_fresh (run [EvGetTrack; EvCloseTrack 0] src0)
           (reachable_run _ _ reachable_src0)).
Defined.

(** X6. [GetTrack] followed by [CloseTrack] of the track it returned gives
    the map back as it was.  What is left is the new buffer, closed and
    empty, and the track object; and, when the map was empty, a [Start]
    and a [Stop] in the history of the device and one more read loop,
    which [CloseTrack] does not end. *)
Theorem GetTrack_CloseTrack s :
  reachable s →
  CloseTrack (GetTrack s).1 (GetTrack s).2 =
    mkState
      (device s ++ (if decide (tracks s = ∅) then [v4l2.Start; v4l2.Stop] else []))
      (tracks s)
      (buffers s ++ [mkBuffer [] true])
      (trackObjs s ++ [length (buffers s)])
      (readLoops s + (if decide (tracks s = ∅) then 1 else 0)).
Proof.
  intros Hr. pose proof (reachable_Inv s Hr) as [H B].
  pose proof (heap_ok_fresh s H) as Hf.
  rewrite (GetTrack_eq s Hf). cbn [fst snd].
  erewrite CloseTrack_eq by (cbn [tracks]; apply lookup_insert_eq).
  cbn [device tracks buffers trackObjs readLoops].
  pose proof (size_insert_fresh_1 _ _ (length (buffers s)) Hf) as Hsz.
  f_equal.
  - destruct (decide (tracks s = ∅)) as [He|He],
      (decide (size (<[length (trackObjs s):=length (buffers s)]> (tracks s)) = 1));
      try tauto; by rewrite <-?app_assoc, ?app_nil_r.
  - by apply delete_insert_id.
  - replace (length (buffers s)) with (length (buffers s) + 0) at 1 by lia.
    by rewrite alter_app_r.
Qed.

Lemma GetTrack_CloseTrack_witness :
  reachable src0
  ∧ device (CloseTrack (GetTrack src0).1 (GetTrack src0).2)
    = device src0 ++ [v4l2.Start; v4l2.Stop].
Proof.
  split; [apply reachable_src0|].
  by rewrite (GetTrack_CloseTrack src0 reachable_src0).
Defined.

(** ** [CloseTrack] *)

(** X7. [CloseTrack] of a track of the map removes that track and closes
    its buffer; every other track stays in the map with its buffer, and
    that buffer is left as it is. *)
Theorem CloseTrack_leaves_others s t b :
  reachable s → tracks s !! t = Some b →
  tracks (CloseTrack t s) !! t = None
  ∧ (∃ B, buffers s !! b = Some B
          ∧ buffers (CloseTrack t s) !! b = Some (Buffer_Close B))
  ∧ ∀ t' b', t' ≠ t → tracks s !! t' = Some b' →
      tracks (CloseTrack t s) !! t' = Some b'
      ∧ buffers (CloseTrack t s) !! b' = buffers s !! b'.
Proof.
  intros Hr Ht. pose proof (reachable_Inv s Hr) as [H B].
  rewrite CloseTrack_tracks. rewrite (CloseTrack_eq _ _ _ Ht). cbn [buffers].
  split_and!.
  - apply lookup_delete_eq.
  - destruct (heap_open _ H _ _ Ht) as (B' & HB & _). exists B'.
    split; [done|]. by rewrite list_lookup_alter_eq, HB.
  - intros t' b' Hne Ht'. split; [by rewrite lookup_delete_ne|].
    apply list_lookup_alter_ne. intros ->. apply Hne.
    by apply (tracks_injective s t' t b').
Qed.

Lemma CloseTrack_leaves_others_witness :
  reachable (run [EvGetTrack; EvGetTrack; EvRead (ReadOk [Byte.x41])] src0)
  ∧ buffers
      (CloseTrack 0 (run [EvGetTrack; EvGetTrack; EvRead (ReadOk [Byte.x41])] src0))
      !! 1
    = Some (mkBuffer [[Byte.x41]] false).
Proof.
  split; [apply reachable_run, reachable_src0|].
  destruct (CloseTrack_leaves_others
              (run [EvGetTrack; EvGetTrack; EvRead (ReadOk [Byte.x41])] src0)
              0 0 (reachable_run _ _ reachable_src0) eq_refl)
    as (_ & _ & Ho).
  destruct (Ho 1 1 ltac:(discriminate) eq_refl) as [_ Hb].
  rewrite Hb. reflexivity.
Defined.

(** ** The tracks of a source *)

(** X8. In every state that a source reaches, each track of the map has a
    buffer of its own: the buffer is allocated, it is open, and no other
    track of the map has it. *)
Theorem tracks_have_their_own_buffer s :
  reachable s →
  (∀ t b, tracks s !! t = Some b →
     ∃ B, buffers s !! b = Some B ∧ buf_closed B = false)
  ∧ (∀ t1 t2 b, tracks s !! t1 = Some b → tracks s !! t2 = Some b → t1 = t2).
Proof.
  intros Hr. pose proof (reachable_Inv s Hr) as [H B]. split.
  - apply (heap_open _ H).
  - intros t1 t2 b. by apply tracks_injective.
Qed.

Lemma tracks_have_their_own_buffer_witness :
  reachable (run [EvGetTrack; EvGetTrack] src0)
  ∧ ∀ t1 t2 b,
      tracks (run [EvGetTrack; EvGetTrack] src0) !! t1 = Some b →
      tracks (run [EvGetTrack; EvGetTrack] src0) !! t2 = Some b → t1 = t2.
Proof.
  split; [apply reachable_run, reachable_src0|].
  apply (tracks_have_their_own_buffer (run [EvGetTrack; EvGetTrack] src0)
           (reachable_run _ _ reachable_src0)).
Defined.

(** ** The read loop *)

(** X9. [readLoop] returns for one reason only, an error of [Read].  If it
    has returned, the device answered with chunks and then with an error,
    and the loop stopped there; if it is still waiting in [Read], every
    answer so far was a chunk and each was passed on. *)
Theorem readLoop_returns_only_on_error outs s :
  match readLoop outs s with
  | Returned s' unread =>
      ∃ chunks e,
        outs = (ReadOk <$> chunks) ++ ReadErr e :: unread
        ∧ s' = exit_readLoop
                 (closeAllTracks (device_call v4l2.Read (after_reads chunks s)))
  | Waiting s' =>
      ∃ chunks, outs = ReadOk <$> chunks ∧ s' = after_reads chunks s
  end.
Proof.
  revert s. induction outs as [|[chunk|e] outs IH]; intros s.
  - by exists [].
  - cbn [readLoop readLoop_iter]. specialize (IH (writeAll chunk (device_call v4l2.Read s))).
    destruct (readLoop outs _) as [s' unread|s'].
    + destruct IH as (chunks & e & -> & ->). by exists (chunk :: chunks), e.
    + destruct IH as (chunks & -> & ->). by exists (chunk :: chunks).
  - cbn [readLoop readLoop_iter]. by exists [], e.
Qed.

Lemma after_reads_empty chunks s :
  tracks s = ∅ →
  after_reads chunks s =
    set_device (device s ++ replicate (length chunks) v4l2.Read) s.
Proof.
  revert s. induction chunks as [|c chunks IH]; intros s He; simpl.
  - rewrite app_nil_r. by destruct s.
  - rewrite IH.
    + unfold writeAll. simpl. rewrite He, map_to_list_empty. simpl.
      unfold set_device, set_buffers. simpl. by rewrite <-app_assoc.
    + done.
Qed.

(** X10. Closing the last track does not end the read loop: [CloseTrack]
    calls [Stop] and leaves the loops as they are.  As long as [Read]
    still succeeds after that, the loop goes on calling it, and the chunks
    it reads reach no buffer. *)
Theorem readLoop_after_last_CloseTrack s t b chunks :
  reachable s → tracks s !! t = Some b → size (tracks s) = 1 →
  calls_added s (CloseTrack t s) [v4l2.Stop]
  ∧ readLoops (CloseTrack t s) = readLoops s
  ∧ 0 < readLoops s
  ∧ readLoop (ReadOk <$> chunks) (CloseTrack t s)
    = Waiting (set_device
                 (device s ++ [v4l2.Stop] ++ replicate (length chunks) v4l2.Read)
                 (CloseTrack t s)).
Proof.
  intros Hr Ht Hs. pose proof (reachable_Inv s Hr) as [H B].
  assert (device (CloseTrack t s) = device s ++ [v4l2.Stop]) as Hd.
  { rewrite (CloseTrack_eq _ _ _ Ht). cbn [device]. by rewrite decide_True. }
  split_and!.
  - done.
  - apply CloseTrack_readLoops.
  - apply (bk_loops _ B). intros He. by rewrite He, lookup_empty in Ht.
  - rewrite <-(app_nil_r (ReadOk <$> chunks)), readLoop_reads. cbn [readLoop].
    rewrite after_reads_empty, Hd; [by rewrite <-app_assoc|].
    rewrite CloseTrack_tracks. by apply (delete_empty_iff_size_1 _ t b).
Qed.

Lemma readLoop_after_last_CloseTrack_witness :
  reachable (run [EvGetTrack] src0)
  ∧ readLoop [ReadOk [Byte.x41]; ReadOk [Byte.x42]]
      (CloseTrack 0 (run [EvGetTrack] src0))
    = Waiting (mkState
                 (device src0 ++ [v4l2.Start; v4l2.Stop; v4l2.Read; v4l2.Read])
                 ∅ [mkBuffer [] true] [0] 1).
Proof.
  split; [apply reachable_run, reachable_src0|].
  destruct (readLoop_after_last_CloseTrack (run [EvGetTrack] src0) 0 0
              [[Byte.x41]; [Byte.x42]]
              (reachable_run _ _ reachable_src0) eq_refl eq_refl)
    as (_ & _ & _ & Hl).
  exact Hl.
Defined.

(** X11. A read loop is launched by [GetTrack] exactly when it starts the
    device, and by nothing else; as long as there is a track in the map, a
    loop is alive to feed it. *)
Theorem readLoop_launched_with_Start s :
  reachable s →
  readLoops (GetTrack s).2 = readLoops s + (if decide (tracks s = ∅) then 1 else 0)
  ∧ calls_added s (GetTrack s).2 (if decide (tracks s = ∅) then [v4l2.Start] else [])
  ∧ (∀ t, readLoops (CloseTrack t s) = readLoops s)
  ∧ (∀ r, readLoops (Close r s).2 = readLoops s)
  ∧ (tracks s ≠ ∅ → 0 < readLoops s).
Proof.
  intros Hr. pose proof (reachable_Inv s Hr) as [H B].
  pose proof (heap_ok_fresh s H) as Hf. unfold calls_added.
  rewrite (GetTrack_eq s Hf). cbn [snd readLoops device]. split_and!; try done.
  - intros t. apply CloseTrack_readLoops.
  - intros r. apply closeAllTracks_readLoops.
  - apply (bk_loops _ B).
Qed.

Lemma readLoop_launched_with_Start_witness :
  reachable (run [EvGetTrack; EvCloseTrack 0] src0)
  ∧ readLoops (GetTrack (run [EvGetTrack; EvCloseTrack 0] src0)).2 = 2.
Proof.
  split; [apply reachable_run, reachable_src0|].
  by rewrite (proj1 (readLoop_launched_with_Start
                       (run [EvGetTrack; EvCloseTrack 0] src0)
                       (reachable_run _ _ reachable_src0))).
Defined.

(** X12. After a read error has shut the tracks down, the source can be
    used again: the turn of the loop that sees the error leaves the map
    empty and the device stopped, and the next [GetTrack] returns a usable
    track, calls [Start] again and launches a new loop. *)
Theorem GetTrack_after_read_error s e :
  reachable s → 0 < readLoops s →
  tracks (step (EvRead (ReadErr e)) s) = ∅
  ∧ v4l2.running (device (step (EvRead (ReadErr e)) s)) = false
  ∧ readLoops (step (EvRead (ReadErr e)) s) = pred (readLoops s)
  ∧ usable (GetTrack (step (EvRead (ReadErr e)) s)).1
           (GetTrack (step (EvRead (ReadErr e)) s)).2
  ∧ calls_added (step (EvRead (ReadErr e)) s)
      (GetTrack (step (EvRead (ReadErr e)) s)).2 [v4l2.Start]
  ∧ readLoops (GetTrack (step (EvRead (ReadErr e)) s)).2 = readLoops s.
Proof.
  intros Hr Hl.
  pose proof (reachable_Inv _ (reachable_step (EvRead (ReadErr e)) s Hr)) as HI.
  assert (tracks (step (EvRead (ReadErr e)) s) = ∅) as He.
  { cbn [step]. rewrite decide_False by lia. apply closeAllTracks_tracks. }
  assert (readLoops (step (EvRead (ReadErr e)) s) = pred (readLoops s)) as Hn.
  { cbn [step]. rewrite decide_False by lia. cbn [readLoop_iter snd].
    change (readLoops (exit_readLoop ?x)) with (pred (readLoops x)).
    by rewrite closeAllTracks_readLoops. }
  pose proof (heap_ok_fresh _ (proj1 HI)) as Hf.
  split_and!.
  - done.
  - rewrite (bk_running _ (proj2 HI)). by rewrite bool_decide_eq_true_2.
  - done.
  - apply GetTrack_usable.
  - unfold calls_added. rewrite (GetTrack_eq _ Hf). cbn [snd device].
    by rewrite decide_True.
  - rewrite (GetTrack_eq _ Hf). cbn [snd readLoops].
    rewrite decide_True by done. lia.
Qed.

Lemma GetTrack_after_read_error_witness :
  reachable (run [EvGetTrack; EvGetTrack] src0)
  ∧ calls_added
      (step (EvRead (ReadErr (errDevice "EIO"))) (run [EvGetTrack; EvGetTrack] src0))
      (GetTrack (step (EvRead (ReadErr (errDevice "EIO")))
                      (run [EvGetTrack; EvGetTrack] src0))).2
      [v4l2.Start].
Proof.
  split; [apply reachable_run, reachable_src0|].
  apply (GetTrack_after_read_error (run [EvGetTrack; EvGetTrack] src0)
           (errDevice "EIO") (reachable_run _ _ reachable_src0)).
  vm_compute. lia.
Defined.

(** ** The calls of the constructor *)



(** ** [Start] and [Stop] in balance *)

Lemma count_cons c c' log :
  v4l2.count c (c' :: log) =
    (if decide (c' = c) then 1 else 0) + v4l2.count c log.
Proof. unfold v4l2.count. rewrite filter_cons. by case_decide. Qed.

Lemma alternating_balance r log :
  v4l2.alternating_from r log = true →
  v4l2.count v4l2.Start log + (if r then 1 else 0)
  = v4l2.count v4l2.Stop log + (if v4l2.running_from r log then 1 else 0).
Proof.
  revert r. induction log as [|c log IH]; intros r Ha; [done|].
  rewrite !count_cons.
  destruct c; cbn [v4l2.alternating_from v4l2.running_from] in *;
    try (rewrite !decide_False by done; by apply IH).
  - apply andb_true_iff in Ha as [Hr Ha]. apply IH in Ha.
    rewrite decide_True, decide_False by done. destruct r; [done|].
    simpl in *. lia.
  - apply andb_true_iff in Ha as [Hr Ha]. apply IH in Ha.
    rewrite decide_False, decide_True by done. destruct r; [|done].
    simpl in *. lia.
Qed.

(** X14. In every state that a source reaches, the device was started as
    many times as it was stopped when the map is empty, and once more
    when there are tracks. *)
Theorem Start_Stop_balance s :
  reachable s →
  v4l2.count v4l2.Start (device s)
  = v4l2.count v4l2.Stop (device s) + (if decide (tracks s = ∅) then 0 else 1).
Proof.
  intros Hr. pose proof (reachable_Inv s Hr) as [_ [Hrun Halt _]].
  pose proof (alternating_balance false (device s) Halt) as Hb.
  fold (v4l2.running (device s)) in Hb. rewrite Hrun in Hb.
  destruct (decide (tracks s = ∅)) as [He|He].
  - rewrite bool_decide_eq_true_2 in Hb by done. simpl in Hb. lia.
  - rewrite bool_decide_eq_false_2 in Hb by done. simpl in Hb. lia.
Qed.

Lemma Start_Stop_balance_witness :
  reachable (run [EvGetTrack; EvCloseTrack 0; EvGetTrack; EvGetTrack] src0)
  ∧ v4l2.count v4l2.Start
      (device (run [EvGetTrack; EvCloseTrack 0; EvGetTrack; EvGetTrack] src0))
    = 2.
Proof.
  split; [apply reachable_run, reachable_src0|].
  by rewrite (Start_Stop_balance
                (run [EvGetTrack; EvCloseTrack 0; EvGetTrack; EvGetTrack] src0)
                (reachable_run _ _ reachable_src0)).
Defined.

(** ** When the constructor succeeds *)

(** X15. The constructor returns a source if and only if [Open] and
    [SetBitrate] succeed and so does each flip that was asked for; what a
    flip that was not asked for would answer does not count.  The source
    it returns has an empty map, no read loop, and a device that was not
    started. *)
Theorem NewV4L2MediaSource_succeeds_iff
    fmt drv filename width height bitrate hflip vflip :
  let cfg := v4l2.mkConfig width height fmt true in
  let r := NewV4L2MediaSource fmt drv filename width height bitrate hflip vflip in
  (is_Some r.1.1 ↔
     v4l2.open_result drv filename cfg = None
     ∧ v4l2.setBitrate_result drv bitrate = None
     ∧ (hflip = true → v4l2.flipHorizontal_result drv = None)
     ∧ (vflip = true → v4l2.flipVertical_result drv = None))
  ∧ ∀ s, r.1.1 = Some s →
      s = mkState r.2 ∅ [] [] 0
      ∧ v4l2.running (device s) = false
      ∧ v4l2.count v4l2.Start (device s) = 0.
Proof.
  intros cfg r. subst cfg r. split.
  - unfold NewV4L2MediaSource.
    destruct (v4l2.open_result drv filename _),
      (v4l2.setBitrate_result drv bitrate),
      hflip, (v4l2.flipHorizontal_result drv), vflip,
      (v4l2.flipVertical_result drv); cbn [fst snd];
      (split; [intros Hs; try (by apply is_Some_None in Hs); by split_and!
              |intros (? & ? & Hh & Hv); try done;
               try (by specialize (Hh eq_refl));
               try (by specialize (Hv eq_refl))]).
  - intros s Hs.
    destruct (NewV4L2MediaSource fmt drv filename width height bitrate hflip vflip)
      as [[src err] tr] eqn:Hn. cbn [fst snd] in *. subst src.
    pose proof (NewV4L2MediaSource_trace fmt drv filename width height bitrate
                  hflip vflip) as Htr. rewrite Hn in Htr. cbn [snd] in Htr.
    apply NewV4L2MediaSource_Some in Hn as [_ ->].
    destruct (setup_running false tr Htr) as [Hrun Halt].
    split_and!; [done..|]. cbn [device].
    clear -Htr. induction tr as [|c tr IH]; [done|].
    simpl in Htr. apply andb_true_iff in Htr as [Hc Htr].
    rewrite count_cons, (IH Htr). by destruct c.
Qed.

Lemma NewV4L2MediaSource_succeeds_iff_witness :
  is_Some (NewV4L2MediaSource H264
     (v4l2.mkDriver (λ _ _, None) (λ _, None) (Some (errDevice "EINVAL")) None)
     "/dev/video0" 640 480 1000000 false true).1.1.
Proof.
  apply (proj1 (NewV4L2MediaSource_succeeds_iff H264
     (v4l2.mkDriver (λ _ _, None) (λ _, None) (Some (errDevice "EINVAL")) None)
     "/dev/video0" 640 480 1000000 false true)).
  split_and!; [reflexivity|reflexivity|discriminate|reflexivity].
Defined.
